(** * word-count-api: the text-to-frequency pipeline and the analysis store

    A shallow embedding of [main.go] (and of the stand-alone copy of
    [ProcessText] in [wordcounter/counter.go], which is the same function).

    Conventions.
    - A Go [string] that is treated as text is represented by the sequence of
      runes (code points) that [strings.ToLower] and [regexp] decode from it.
      Identifiers and media types, which the program only compares for
      equality, are ordinary strings.
    - Go's [int] is a 64-bit two's complement integer: it is a [Z] and every
      increment goes through [wrap64].
    - The tables of Go's [unicode] package and the PDF library are not part of
      the repository; they are parameters ([Unicode], [PDFLibrary]).
    - Ranging over a Go map visits the entries in an unspecified order and
      [sort.Slice] is not stable; both choices are made by a [Schedule]. *)

From stdpp Require Import gmap strings list sorting.
From Stdlib Require Import ZArith Lia.

Local Open Scope Z_scope.

(** ** Runes and the library tables *)

Abbreviation rune := Z.
Abbreviation gostring := (list Z).

(** [unicode.IsLetter] (the class [\p{L}]) and [unicode.ToLower]. *)
Class Unicode := {
  isLetter : rune → bool;
  toLower : rune → rune
}.

(** [regexp/syntax.IsWordChar]: the ASCII word characters [0-9A-Za-z_]. *)
Definition isWordChar (r : rune) : bool :=
  (65 <=? r) && (r <=? 90) || (97 <=? r) && (r <=? 122)
  || (48 <=? r) && (r <=? 57) || (r =? 95).

(** ** The regular expression engine

    The fragment of RE2 syntax that [wordRegex] uses, with Go's default
    leftmost-first semantics: among the matches that start at the leftmost
    possible position, the one a backtracking search finds first, where a
    greedy repetition tries one more iteration before it tries to stop. *)

Inductive regex :=
| WordBoundary
| Class (p : rune → bool)
| Plus (r : regex)
| Concat (r1 r2 : regex).

(** A position in the text: the rune before it (none at the beginning of the
    text) and the runes from it on. *)
Record cursor := Cursor { before : option rune; after : list rune }.

Definition wordBefore (c : cursor) : bool :=
  match before c with Some r => isWordChar r | None => false end.

Definition wordAfter (c : cursor) : bool :=
  match after c with r :: _ => isWordChar r | [] => false end.

(** [syntax.EmptyOpContext]: a word boundary is a position with a word
    character on exactly one side; the text's ends count as non-word. *)
Definition atWordBoundary (c : cursor) : bool :=
  xorb (wordBefore c) (wordAfter c).

Definition advance (c : cursor) : option cursor :=
  match after c with
  | r :: s => Some (Cursor (Some r) s)
  | [] => None
  end.

(** A greedy repetition of the matcher [m]: after an iteration that consumed
    input it first tries one more, then the continuation [k]. [n] bounds the
    number of further iterations; the number of runes left is enough. *)
Fixpoint repeatGreedy (m : (cursor → option cursor) → cursor → option cursor)
    (k : cursor → option cursor) (n : nat) (c0 : cursor) : option cursor :=
  m (fun c1 =>
       match n with
       | S n' =>
           if (length (after c1) <? length (after c0))%nat
           then match repeatGreedy m k n' c1 with
                | Some e => Some e
                | None => k c1
                end
           else k c1
       | O => k c1
       end) c0.

(** [rmatch r k c]: match [r] at [c], then continue with [k]; the first
    success in priority order. *)
Fixpoint rmatch (r : regex) (k : cursor → option cursor) (c : cursor)
  : option cursor :=
  match r with
  | WordBoundary => if atWordBoundary c then k c else None
  | Class p =>
      match after c with
      | x :: s => if p x then k (Cursor (Some x) s) else None
      | [] => None
      end
  | Concat r1 r2 => rmatch r1 (rmatch r2 k) c
  | Plus r1 => repeatGreedy (rmatch r1) k (length (after c)) c
  end.

(** The end of the leftmost-first match of [re] that starts at [c]. *)
Definition matchAt (re : regex) (c : cursor) : option cursor :=
  rmatch re Some c.

(** [Regexp.doExecute] from position [c]: the first position at or after [c]
    where a match starts, with the end of that match. *)
Fixpoint search (re : regex) (bef : option rune) (s : list rune)
  : option (cursor * cursor) :=
  match matchAt re (Cursor bef s) with
  | Some e => Some (Cursor bef s, e)
  | None =>
      match s with
      | r :: s' => search re (Some r) s'
      | [] => None
      end
  end.

Definition doExecute (re : regex) (c : cursor) : option (cursor * cursor) :=
  search re (before c) (after c).

(** The text between two positions. *)
Definition matched (b e : cursor) : list rune :=
  take (length (after b) - length (after e))%nat (after b).

(** [Regexp.allMatches]: successive non-overlapping matches. A position is
    identified by the number of runes after it. An empty match that ends
    where the previous match ended is not delivered, and after an empty match
    the search resumes one rune further. *)
Fixpoint allMatches (fuel : nat) (re : regex) (pos : cursor)
    (prevMatchEnd : option nat) : list (list rune) :=
  match fuel with
  | O => []
  | S fuel' =>
      match doExecute re pos with
      | None => []
      | Some (b, e) =>
          if (length (after e) =? length (after pos))%nat
          then
            let accept :=
              negb (bool_decide (prevMatchEnd = Some (length (after b)))) in
            let deliver := if accept then [matched b e] else [] in
            match advance pos with
            | Some pos' =>
                deliver ++ allMatches fuel' re pos' (Some (length (after e)))
            | None => deliver
            end
          else
            matched b e :: allMatches fuel' re e (Some (length (after e)))
      end
  end.

(** [re.FindAllString(s, -1)]. *)
Definition FindAllString (re : regex) (s : list rune) : list (list rune) :=
  allMatches (S (length s)) re (Cursor None s) None.

Section Tokenizer.
Context `{Unicode}.

(** [strings.ToLower]. *)
Definition ToLower (text : list rune) : list rune := map toLower text.

(** [regexp.MustCompile(`\b[\p{L}]+\b`)]. *)
Definition wordRegex : regex :=
  Concat WordBoundary (Concat (Plus (Class isLetter)) WordBoundary).

(** The first two statements of [processText]. *)
Definition tokenize (text : list rune) : list (list rune) :=
  FindAllString wordRegex (ToLower text).
End Tokenizer.

(** ** Word frequencies *)

(** Go's [int] arithmetic: the result of an operation, reduced to the 64-bit
    two's complement range. *)
Definition maxInt : Z := 2 ^ 63 - 1.
Definition wrap64 (z : Z) : Z := (z + 2 ^ 63) mod 2 ^ 64 - 2 ^ 63.

Record WordFrequency := { Word : gostring; Frequency : Z }.

(** [frequencies[word]++] for every word: a missing key reads as zero. *)
Definition increment (m : gmap (list Z) Z) (word : list rune) : gmap (list Z) Z :=
  <[word := wrap64 (default 0 (m !! word) + 1)]> m.

Definition countWords (words : list (list rune)) : gmap (list Z) Z :=
  foldl increment ∅ words.

(** The comparison given to [sort.Slice]:
    [result[i].Frequency > result[j].Frequency]. *)
Definition byFrequency (a b : WordFrequency) : bool :=
  Frequency b <? Frequency a.

(** What [sort.Slice] asks of its comparison. *)
Record StrictWeakOrder {A} (less : A → A → bool) : Prop := {
  less_irrefl : ∀ x, less x x = false;
  less_trans : ∀ x y z, less x y = true → less y z = true → less x z = true;
  less_incomparable_trans : ∀ x y z,
    less x y = false → less y x = false →
    less y z = false → less z y = false →
    less x z = false ∧ less z x = false
}.

(** [sort.SliceIsSorted]: no element is less than its predecessor. *)
Definition SliceIsSorted {A} (less : A → A → bool) (l : list A) : Prop :=
  Sorted (fun x y => less y x = false) l.

(** The two choices the language leaves open in [processText]: the order in
    which [range] visits the entries of a map (every entry once), and the
    arrangement [sort.Slice] produces (a sorted rearrangement of the slice,
    with no promise about elements that compare equal). *)
Record Schedule := {
  mapOrder : gmap (list Z) Z → list (list Z * Z);
  mapOrder_perm : ∀ m, mapOrder m ≡ₚ map_to_list m;
  sortSlice :
    (WordFrequency → WordFrequency → bool) → list WordFrequency → list WordFrequency;
  sortSlice_perm : ∀ less l, sortSlice less l ≡ₚ l;
  sortSlice_sorted : ∀ less l,
    StrictWeakOrder less → SliceIsSorted less (sortSlice less l)
}.

Definition entry (kv : list Z * Z) : WordFrequency :=
  {| Word := kv.1; Frequency := kv.2 |}.

(** The second half of [processText]: count, convert to a slice, sort. *)
Definition aggregate (sched : Schedule) (words : list (list rune))
  : list WordFrequency :=
  let frequencies := countWords words in
  let result := map entry (mapOrder sched frequencies) in
  sortSlice sched byFrequency result.

Definition processText `{Unicode} (sched : Schedule) (text : list rune)
  : list WordFrequency :=
  aggregate sched (tokenize text).

(** ** The store *)

Record Analysis := { ID : string; Frequencies : list WordFrequency }.

Record Store := { analyses : gmap string Analysis }.

Definition NewStore : Store := {| analyses := ∅ |}.

(** [store.analyses[analysisID] = analysis], under the write lock. *)
Definition storeCreate (analysisID : string) (frequencies : list WordFrequency)
    (st : Store) : Store :=
  let analysis := {| ID := analysisID; Frequencies := frequencies |} in
  {| analyses := <[analysisID := analysis]> (analyses st) |}.

(** [analysis, exists := store.analyses[id]], under the read lock. *)
Definition storeGet (st : Store) (id : string) : option Analysis :=
  analyses st !! id.

(** ** PDF text extraction *)

(** What [pdf.NewReader] returns: the page count and, for every page number,
    the outcome of [reader.Page(i).GetPlainText()]. *)
Record PDFReader := {
  NumPage : Z;
  GetPlainText : Z → option gostring
}.

Class PDFLibrary := { pdfNewReader : gostring → option PDFReader }.

(** An [io.Reader]: what [io.ReadAll] returns for it. *)
Record File := { fileData : gostring; fileErr : bool }.

Inductive error :=
| ErrReadingPDF
| ErrCreatingReader.

Definition ReadAll (file : File) : gostring * bool := (fileData file, fileErr file).

(** [for i := 1; i <= reader.NumPage(); i++]: [n] iterations remain, [i] is
    the page number, [text] the builder's content. The loop of the source
    makes [NumPage] iterations when the page count is below the largest
    [int]; at the largest [int] itself the counter would wrap and the loop
    would not end, a case the model leaves out. *)
Fixpoint pageLoop (reader : PDFReader) (n : nat) (i : Z) (text : gostring)
  : gostring :=
  match n with
  | O => text
  | S n' =>
      match GetPlainText reader i with
      | None => pageLoop reader n' (wrap64 (i + 1)) text
      | Some pageText => pageLoop reader n' (wrap64 (i + 1)) (text ++ pageText)
      end
  end.

Definition extractPDFText `{PDFLibrary} (file : File) : gostring * option error :=
  let '(content, err) := ReadAll file in
  if err then ([], Some ErrReadingPDF)
  else
    match pdfNewReader content with
    | None => ([], Some ErrCreatingReader)
    | Some reader =>
        (pageLoop reader (Z.to_nat (NumPage reader)) 1 [], None)
    end.

(** ** The handlers *)

Inductive status :=
| StatusOK
| StatusBadRequest
| StatusNotFound
| StatusInternalServerError.

Inductive body :=
| ErrorText (msg : string)
| IdJSON (id : string)
| AnalysisJSON (a : Analysis).

Record Response := { code : status; payload : body }.

Definition httpError (msg : string) (c : status) : Response :=
  {| code := c; payload := ErrorText msg |}.

(** The request as [handleUpload] sees it: the multipart form does not parse,
    it has no part named [file], or it has one, with its declared
    [Content-Type] and its content. *)
Inductive UploadRequest :=
| FormTooLarge
| MissingFile
| Upload (contentType : string) (file : File).

Definition isValidContentType (contentType : string) : bool :=
  bool_decide (contentType = "text/plain")
  || bool_decide (contentType = "application/pdf").

Section Handlers.
Context `{Unicode} `{PDFLibrary}.

(** [analysisID] is the value of [uuid.New().String()]. The [err] that is
    tested after the branch is the one declared by [r.FormFile]: the PDF
    branch assigns to it, the other branch declares an [err] of its own
    with [:=] and leaves it as it was ([nil]). *)
Definition handleUpload (sched : Schedule) (analysisID : string)
    (st : Store) (req : UploadRequest) : Store * Response :=
  match req with
  | FormTooLarge => (st, httpError "File too large" StatusBadRequest)
  | MissingFile => (st, httpError "Error retrieving file" StatusBadRequest)
  | Upload contentType file =>
      let err : option error := None in
      if negb (isValidContentType contentType) then
        (st, httpError
               "Invalid file type. Only text/plain and application/pdf are supported"
               StatusBadRequest)
      else
        let '(text, err) :=
          if bool_decide (contentType = "application/pdf") then
            extractPDFText file
          else
            let '(content, err') := ReadAll file in
            (if err' then [] else content, err) in
        match err with
        | Some _ =>
            (st, httpError "Error reading file content" StatusInternalServerError)
        | None =>
            let frequencies := processText sched text in
            (storeCreate analysisID frequencies st,
             {| code := StatusOK; payload := IdJSON analysisID |})
        end
  end.

Definition handleGetAnalysis (st : Store) (id : string) : Response :=
  match storeGet st id with
  | None => httpError "Analysis not found" StatusNotFound
  | Some analysis => {| code := StatusOK; payload := AnalysisJSON analysis |}
  end.

(** The server: requests are served one after the other against the one
    store created at start-up. *)
Inductive request :=
| PostUpload (sched : Schedule) (analysisID : string) (req : UploadRequest)
| GetAnalysis (id : string).

Definition serve (st : Store) (r : request) : Store * Response :=
  match r with
  | PostUpload sched analysisID req => handleUpload sched analysisID st req
  | GetAnalysis id => (st, handleGetAnalysis st id)
  end.

Definition serveAll (rs : list request) : Store :=
  foldl (fun st r => (serve st r).1) NewStore rs.
End Handlers.

(** ** Instances used to run the code *)

(** The tables restricted to the Basic Latin and Latin-1 Supplement blocks
    (U+0000 to U+00FF), where they are the ones of Go's [unicode] package. *)
Definition latin1 : Unicode := {|
  isLetter r :=
    (65 <=? r) && (r <=? 90) || (97 <=? r) && (r <=? 122)
    || (r =? 170) || (r =? 181) || (r =? 186)
    || (192 <=? r) && (r <=? 214) || (216 <=? r) && (r <=? 246)
    || (248 <=? r) && (r <=? 255);
  toLower r :=
    if (65 <=? r) && (r <=? 90) || (192 <=? r) && (r <=? 214)
       || (216 <=? r) && (r <=? 222)
    then r + 32 else r
|}.

(** The runes of an ASCII string literal. *)
Definition runes (s : string) : list rune :=
  map (fun a => Z.of_nat (Ascii.nat_of_ascii a)) (String.list_ascii_of_string s).

(** Insertion sort, which is what [sort.Slice] runs on a short slice: each
    element in turn is swapped towards the front while it is less than its
    predecessor. The sorted part is held last element first. *)
Fixpoint sinkInto {A} (less : A → A → bool) (x : A) (sortedRev : list A) : list A :=
  match sortedRev with
  | [] => [x]
  | y :: p => if less x y then y :: sinkInto less x p else x :: sortedRev
  end.

Definition insertionSort {A} (less : A → A → bool) (l : list A) : list A :=
  reverse (foldl (fun acc x => sinkInto less x acc) [] l).

(** A schedule that sorts by insertion and visits a map in the order of
    [map_to_list], or in the opposite order. *)
Program Definition insertionSchedule (backwards : bool) : Schedule := {|
  mapOrder m := if backwards then reverse (map_to_list m) else map_to_list m;
  sortSlice less l := insertionSort less l
|}.
Next Obligation.
  intros [] m; [apply reverse_Permutation|reflexivity].
Qed.
Next Obligation.
  intros _ less l. unfold insertionSort. rewrite reverse_Permutation.
  assert (Hsink : ∀ x p, sinkInto less x p ≡ₚ x :: p).
  { intros x p. induction p as [|y p IH]; [done|]. simpl.
    destruct (less x y); [|done]. rewrite IH. apply perm_swap. }
  assert (Hgen : ∀ acc,
            foldl (fun acc x => sinkInto less x acc) acc l ≡ₚ l ++ acc).
  { induction l as [|x l IH]; intros acc; [done|]. simpl.
    rewrite IH, Hsink. by rewrite Permutation_middle. }
  rewrite Hgen. by rewrite app_nil_r.
Qed.
Next Obligation.
  intros _ less l Hless. unfold SliceIsSorted, insertionSort.
  apply (Sorted_reverse (fun a b => less a b = false)).
  assert (Hasym : ∀ x y, less x y = true → less y x = false).
  { intros x y Hxy. destruct (less y x) eqn:Hyx; [|done].
    pose proof (less_trans less Hless _ _ _ Hxy Hyx) as Hxx.
    by rewrite (less_irrefl less Hless) in Hxx. }
  assert (Hsink : ∀ x p, Sorted (fun a b => less a b = false) p →
            Sorted (fun a b => less a b = false) (sinkInto less x p)).
  { intros x p. induction 1 as [|y p Hp IH Hhd]; [by repeat constructor|].
    simpl. destruct (less x y) eqn:Hxy.
    - constructor; [exact IH|].
      destruct Hhd as [|z p Hyz]; simpl; [constructor; auto|].
      destruct (less x z); constructor; auto.
    - constructor; [by constructor|by constructor]. }
  assert (Hgen : ∀ acc, Sorted (fun a b => less a b = false) acc →
            Sorted (fun a b => less a b = false)
              (foldl (fun acc x => sinkInto less x acc) acc l)).
  { induction l as [|x l IH]; intros acc Hacc; [done|]. simpl.
    apply IH. by apply Hsink. }
  apply Hgen. constructor.
Qed.

Definition forwardSchedule : Schedule := insertionSchedule false.
Definition backwardSchedule : Schedule := insertionSchedule true.

(** A PDF library for the examples: every content is a document of three
    pages, the second of which cannot be extracted. *)
Definition threePages : PDFReader := {|
  NumPage := 3;
  GetPlainText i :=
    if i =? 1 then Some (runes "one ")
    else if i =? 3 then Some (runes "three") else None
|}.

Definition samplePDF : PDFLibrary := {| pdfNewReader _ := Some threePages |}.

(** ** The tokenizer as the specification words it

    A maximal run of letters, with the rune before it and the rune after it
    (none at the ends of the text). *)
Record run := { runBefore : option rune; runText : list rune; runAfter : option rune }.

Definition isLetterOpt `{Unicode} (o : option rune) : bool :=
  match o with Some r => isLetter r | None => false end.

Definition isWordCharOpt (o : option rune) : bool :=
  match o with Some r => isWordChar r | None => false end.

(** The longest prefix of letters, and what follows it. *)
Fixpoint takeLetters `{Unicode} (s : list rune) : list rune :=
  match s with
  | c :: s' => if isLetter c then c :: takeLetters s' else []
  | [] => []
  end.

Fixpoint dropLetters `{Unicode} (s : list rune) : list rune :=
  match s with
  | c :: s' => if isLetter c then dropLetters s' else s
  | [] => []
  end.

(** The maximal runs of letters of [s], left to right; [prev] is the rune
    before [s]. A run starts at a letter that does not follow a letter and
    extends over all the letters from there. *)
Fixpoint maximalRunsFrom `{Unicode} (prev : option rune) (s : list rune) : list run :=
  match s with
  | [] => []
  | c :: s' =>
      if isLetter c && negb (isLetterOpt prev)
      then {| runBefore := prev;
              runText := takeLetters s;
              runAfter := head (dropLetters s) |}
           :: maximalRunsFrom (Some c) s'
      else maximalRunsFrom (Some c) s'
  end.

Definition maximalLetterRuns `{Unicode} (s : list rune) : list run :=
  maximalRunsFrom None s.

(** A run that has no ASCII digit, underscore or ASCII letter next to it. *)
Definition freeStanding (r : run) : bool :=
  negb (isWordCharOpt (runBefore r)) && negb (isWordCharOpt (runAfter r)).

(** Every letter of the text is an ASCII letter. *)
Definition asciiLetters `{Unicode} (s : list rune) : Prop :=
  Forall (fun c => isLetter c = true → isWordChar c = true) s.

(** The texts of the free-standing maximal runs, left to right. *)
Definition freeStandingRuns `{Unicode} (prev : option rune) (s : list rune)
  : list (list rune) :=
  map runText (List.filter freeStanding (maximalRunsFrom prev s)).

(** The match of [[\p{L}]+\b] at the runes [s], unfolded: as many letters as
    possible such that a word boundary follows. *)
Fixpoint lettersThenBoundary `{Unicode} (s : list rune) : option cursor :=
  match s with
  | x :: s' =>
      if isLetter x then
        match lettersThenBoundary s' with
        | Some e => Some e
        | None =>
            if atWordBoundary (Cursor (Some x) s')
            then Some (Cursor (Some x) s') else None
        end
      else None
  | [] => None
  end.

(** The words [ts] occur in the text one after the other, left to right and
    without overlap; what lies between them separates them. *)
Inductive occurInOrder : list (list rune) → list rune → Prop :=
| occur_nil s : occurInOrder [] s
| occur_cons t ts pre post :
    occurInOrder ts post → occurInOrder (t :: ts) (pre ++ t ++ post).

(** The invariant of the scan in a text whose letters are ASCII letters: the
    letters around and after the position are ASCII letters. *)
Definition asciiFrom `{Unicode} (bef : option rune) (s : list rune) : Prop :=
  (isLetterOpt bef = true → isWordCharOpt bef = true) ∧ asciiLetters s.

(** ** Other notions of the specification *)

(** The number of occurrences of [w] in [words]. *)
Definition occurrences (w : list rune) (words : list (list rune)) : nat :=
  length (filter (fun t => t = w) words).

(** The sum of the frequencies of a result. *)
Definition sumFrequencies (l : list WordFrequency) : Z :=
  foldr (fun wf acc => Frequency wf + acc) 0 l.

(** The page numbers [1..n]. *)
Definition pageNumbers (n : Z) : list Z :=
  map Z.of_nat (seq 1 (Z.to_nat n)).

(** The store's invariant: an analysis is filed under its own identifier. *)
Definition keyedByID (st : Store) : Prop :=
  ∀ id a, analyses st !! id = Some a → ID a = id.

(** ** Notions used by the further properties *)

(** The position [c] of a text, seen in the text followed by the rune [sep]
    and the runes [s2]. *)
Definition extendCursor (sep : rune) (s2 : list rune) (c : cursor) : cursor :=
  Cursor (before c) (after c ++ sep :: s2).

(** A ranked list of words: the frequencies do not increase, the words are
    pairwise distinct, and each is a non-empty sequence of letters. *)
Definition wellRanked `{Unicode} (l : list WordFrequency) : Prop :=
  Sorted (fun a b => Frequency b ≤ Frequency a) l
  ∧ NoDup (map Word l)
  ∧ Forall (fun wf => Word wf ≠ []
                      ∧ Forall (fun c => isLetter c = true) (Word wf)) l.

(** The request is an upload that is given the identifier [id]. *)
Definition uploadsAs (id : string) (r : request) : Prop :=
  match r with
  | PostUpload _ analysisID _ => analysisID = id
  | GetAnalysis _ => False
  end.

Definition isUpload (r : request) : bool :=
  match r with
  | PostUpload _ _ _ => true
  | GetAnalysis _ => false
  end.



(** * Properties *)

(** ** The regular expression [wordRegex] *)

Section TokenizerFacts.
Context `{Unicode}.

Lemma repeatGreedy_letters (k : cursor → option cursor) s :
  ∀ n bef, (length s ≤ n)%nat →
    repeatGreedy (rmatch (Class isLetter)) (rmatch WordBoundary k) n (Cursor bef s)
    = (fix go (s : list rune) : option cursor :=
         match s with
         | x :: s' =>
             if isLetter x then
               match go s' with
               | Some e => Some e
               | None => rmatch WordBoundary k (Cursor (Some x) s')
               end
             else None
         | [] => None
         end) s.
Proof.
  induction s as [|x s IH]; intros n bef Hn.
  - destruct n; reflexivity.
  - destruct n as [|n]; [simpl in Hn; lia|].
    cbn [repeatGreedy rmatch after].
    destruct (isLetter x); [|reflexivity].
    cbn [after length].
    replace (length s <? S (length s))%nat with true
      by (symmetry; apply Nat.ltb_lt; lia).
    rewrite IH by (simpl in Hn; lia). reflexivity.
Qed.

Lemma matchAt_wordRegex bef s :
  matchAt wordRegex (Cursor bef s)
  = if atWordBoundary (Cursor bef s) then lettersThenBoundary s else None.
Proof.
  change (matchAt wordRegex (Cursor bef s)) with
    (if atWordBoundary (Cursor bef s)
     then repeatGreedy (rmatch (Class isLetter)) (rmatch WordBoundary Some)
            (length s) (Cursor bef s)
     else None).
  destruct (atWordBoundary (Cursor bef s)); [|reflexivity].
  rewrite repeatGreedy_letters by lia.
  induction s as [|x s IH]; [reflexivity|].
  cbn [lettersThenBoundary]. rewrite IH. reflexivity.
Qed.

(** A match consumes a non-empty sequence of letters. *)
Lemma lettersThenBoundary_Some s e :
  lettersThenBoundary s = Some e →
  ∃ t, t ≠ [] ∧ Forall (fun c => isLetter c = true) t ∧ s = t ++ after e.
Proof.
  revert e. induction s as [|x s IH]; intros e; [discriminate|].
  cbn [lettersThenBoundary].
  destruct (isLetter x) eqn:Hx; [|discriminate].
  destruct (lettersThenBoundary s) as [e'|] eqn:Hs.
  - intros [= <-]. destruct (IH _ eq_refl) as (t & _ & Ht & Heq).
    exists (x :: t). split; [discriminate|]. split; [by constructor|].
    simpl. by rewrite <- Heq.
  - destruct (atWordBoundary _); [|discriminate]. intros [= <-].
    exists [x]. split; [discriminate|]. split; [by repeat constructor|].
    reflexivity.
Qed.

Lemma matched_app bef bef' (t r : list rune) :
  matched (Cursor bef (t ++ r)) (Cursor bef' r) = t.
Proof.
  unfold matched. cbn [after]. rewrite length_app.
  replace (length t + length r - length r)%nat with (length t) by lia.
  by rewrite take_app_length.
Qed.

(** What [search] returns for [wordRegex]: a non-empty match made of letters,
    inside the text searched. *)
Lemma search_wordRegex_Some s : ∀ bef b e,
  search wordRegex bef s = Some (b, e) →
  (length (after e) < length s)%nat ∧
  matched b e ≠ [] ∧ Forall (fun c => isLetter c = true) (matched b e).
Proof.
  induction s as [|x s IH]; intros bef b e; cbn [search];
    rewrite matchAt_wordRegex.
  - destruct (atWordBoundary _); discriminate.
  - destruct (if atWordBoundary _ then _ else None) as [e'|] eqn:Hm.
    + intros [= <- <-].
      destruct (atWordBoundary _); [|discriminate].
      destruct (lettersThenBoundary_Some _ _ Hm) as (t & Hne & Ht & Heq).
      destruct e' as [bef' r]. cbn [after] in *. rewrite Heq.
      rewrite matched_app. split; [|done].
      rewrite length_app. destruct t; [done|simpl; lia].
    + intros Hs. destruct (IH _ _ _ Hs) as (Hlen & Hne & Ht).
      split; [simpl; lia|done].
Qed.

Lemma allMatches_wordRegex_step fuel bef s pm :
  allMatches (S fuel) wordRegex (Cursor bef s) pm
  = match search wordRegex bef s with
    | None => []
    | Some (b, e) =>
        matched b e :: allMatches fuel wordRegex e (Some (length (after e)))
    end.
Proof.
  cbn [allMatches]. unfold doExecute. cbn [before after].
  destruct (search wordRegex bef s) as [[b e]|] eqn:Hs; [|reflexivity].
  destruct (search_wordRegex_Some _ _ _ _ Hs) as (Hlen & _).
  replace (length (after e) =? length s)%nat with false; [reflexivity|].
  symmetry. apply Nat.eqb_neq. lia.
Qed.

(** Every token is a non-empty sequence of letters. *)
Lemma allMatches_letters fuel : ∀ c pm,
  Forall (fun t => t ≠ [] ∧ Forall (fun x => isLetter x = true) t)
    (allMatches fuel wordRegex c pm).
Proof.
  induction fuel as [|fuel IH]; intros [bef s] pm; [constructor|].
  rewrite allMatches_wordRegex_step.
  destruct (search wordRegex bef s) as [[b e]|] eqn:Hs; [|constructor].
  destruct (search_wordRegex_Some _ _ _ _ Hs) as (_ & Hne & Ht).
  constructor; [done|apply IH].
Qed.

(** A match lies inside the text searched. *)
Lemma search_wordRegex_infix s : ∀ bef b e,
  search wordRegex bef s = Some (b, e) →
  ∃ pre, s = pre ++ matched b e ++ after e.
Proof.
  induction s as [|x s IH]; intros bef b e; cbn [search];
    rewrite matchAt_wordRegex.
  - destruct (atWordBoundary _); discriminate.
  - destruct (if atWordBoundary _ then _ else None) as [e'|] eqn:Hm.
    + intros [= <- <-].
      destruct (atWordBoundary _); [|discriminate].
      destruct (lettersThenBoundary_Some _ _ Hm) as (t & _ & _ & Heq).
      destruct e' as [bef' r]. cbn [after] in *. exists [].
      rewrite Heq at 2. rewrite matched_app. by rewrite Heq.
    + intros Hs. destruct (IH _ _ _ Hs) as [pre Hpre].
      exists (x :: pre). simpl. by rewrite <- Hpre.
Qed.

(** The tokens occur in the text in the order in which they are returned. *)
Lemma allMatches_occurInOrder fuel : ∀ s bef pm,
  occurInOrder (allMatches fuel wordRegex (Cursor bef s) pm) s.
Proof.
  induction fuel as [|fuel IH]; intros s bef pm; [constructor|].
  rewrite allMatches_wordRegex_step.
  destruct (search wordRegex bef s) as [[b e]|] eqn:Hs; [|constructor].
  destruct (search_wordRegex_infix _ _ _ _ Hs) as [pre Hpre].
  destruct e as [bef' r]. cbn [after] in *.
  rewrite Hpre. constructor. apply IH.
Qed.

(** There are no more tokens than runes. *)
Lemma allMatches_length fuel : ∀ s bef pm,
  (length (allMatches fuel wordRegex (Cursor bef s) pm) ≤ length s)%nat.
Proof.
  induction fuel as [|fuel IH]; intros s bef pm; [simpl; lia|].
  rewrite allMatches_wordRegex_step.
  destruct (search wordRegex bef s) as [[b e]|] eqn:Hs; [|simpl; lia].
  destruct (search_wordRegex_Some _ _ _ _ Hs) as (Hlen & _).
  destruct e as [bef' r]. cbn [after] in *. cbn [length].
  specialize (IH r bef' (Some (length r))). lia.
Qed.

(** *** Texts whose letters are ASCII letters *)

Lemma takeLetters_dropLetters s : takeLetters s ++ dropLetters s = s.
Proof.
  induction s as [|x s IH]; [reflexivity|]. simpl.
  destruct (isLetter x); [simpl; by rewrite IH|reflexivity].
Qed.

Lemma asciiLetters_dropLetters s : asciiLetters s → asciiLetters (dropLetters s).
Proof.
  unfold asciiLetters. induction 1 as [|x s Hx Hs IH]; [constructor|].
  simpl. case_eq (isLetter x); intros E; [exact IH|by constructor].
Qed.

Lemma last_takeLetters_word x s :
  isLetter x = true → asciiLetters (x :: s) →
  isWordCharOpt (last (x :: takeLetters s)) = true.
Proof.
  revert x. induction s as [|y s IH]; intros x Hx Ha.
  - simpl. inversion Ha; auto.
  - inversion Ha as [|? ? Hwx Ha']; subst. cbn [takeLetters].
    destruct (isLetter y) eqn:Hy; [|simpl; auto].
    rewrite last_cons_cons. by apply IH.
Qed.

(** Inside a run of ASCII letters there is no word boundary, so the match
    covers the whole run and needs a non-word rune, or the end, after it. *)
Lemma lettersThenBoundary_ascii x s :
  isLetter x = true → asciiLetters (x :: s) →
  lettersThenBoundary (x :: s)
  = if isWordCharOpt (head (dropLetters s)) then None
    else Some (Cursor (last (x :: takeLetters s)) (dropLetters s)).
Proof.
  revert x. induction s as [|y s IH]; intros x Hx Ha;
    inversion Ha as [|? ? Hwx Ha']; subst.
  - cbn. rewrite Hx. unfold atWordBoundary, wordBefore, wordAfter. cbn.
    by rewrite (Hwx Hx).
  - cbn [lettersThenBoundary]. rewrite Hx.
    change (match lettersThenBoundary (y :: s) with
            | Some e => Some e
            | None => if atWordBoundary (Cursor (Some x) (y :: s))
                      then Some (Cursor (Some x) (y :: s)) else None
            end = if isWordCharOpt (head (dropLetters (y :: s))) then None
                  else Some (Cursor (last (x :: takeLetters (y :: s)))
                                    (dropLetters (y :: s)))).
    unfold atWordBoundary, wordBefore, wordAfter. cbn [before after].
    rewrite (Hwx Hx). cbn [dropLetters takeLetters].
    destruct (isLetter y) eqn:Hy.
    + rewrite (IH y Hy Ha'). rewrite last_cons_cons.
      inversion Ha' as [|? ? Hwy _]; subst. rewrite (Hwy Hy). cbn.
      by destruct (isWordCharOpt (head (dropLetters s))).
    + cbn [lettersThenBoundary]. rewrite Hy. cbn.
      by destruct (isWordChar y).
Qed.

(** The runs found after a letter are the ones found after its run. *)
Lemma maximalRunsFrom_skip s : ∀ x,
  isLetter x = true →
  maximalRunsFrom (Some x) s
  = maximalRunsFrom (last (x :: takeLetters s)) (dropLetters s).
Proof.
  induction s as [|y s IH]; intros x Hx; [reflexivity|].
  cbn [maximalRunsFrom takeLetters dropLetters isLetterOpt].
  destruct (isLetter y) eqn:Hy.
  - rewrite Hx. cbn [negb andb]. rewrite last_cons_cons. by apply IH.
  - cbn [andb last]. cbn [maximalRunsFrom]. by rewrite Hy.
Qed.

Lemma search_freeStandingRuns s : ∀ bef,
  asciiFrom bef s →
  match search wordRegex bef s with
  | None => freeStandingRuns bef s = []
  | Some (b, e) =>
      freeStandingRuns bef s
      = matched b e :: freeStandingRuns (before e) (after e)
      ∧ asciiFrom (before e) (after e)
  end.
Proof.
  induction s as [|x s IH]; intros bef [Hbef Ha].
  - cbn [search]. rewrite matchAt_wordRegex. cbn.
    by destruct (atWordBoundary _).
  - inversion Ha as [|? ? Hwx Ha']; subst.
    assert (Hnext : asciiFrom (Some x) s) by (split; [exact Hwx|exact Ha']).
    specialize (IH (Some x) Hnext).
    cbn [search]. rewrite matchAt_wordRegex.
    destruct (isLetter x) eqn:Hx.
    2: { assert (Hf : freeStandingRuns bef (x :: s) = freeStandingRuns (Some x) s)
           by (unfold freeStandingRuns; cbn [maximalRunsFrom]; by rewrite Hx).
         rewrite Hf. cbn [lettersThenBoundary]. rewrite Hx.
         destruct (atWordBoundary _); exact IH. }
    specialize (Hwx eq_refl).
    destruct (isLetterOpt bef) eqn:Hlb.
    { assert (Hf : freeStandingRuns bef (x :: s) = freeStandingRuns (Some x) s)
        by (unfold freeStandingRuns; cbn [maximalRunsFrom]; by rewrite Hx, Hlb).
      rewrite Hf.
      unfold atWordBoundary, wordBefore, wordAfter. cbn [before after].
      assert (Hb : isWordCharOpt bef = true) by auto.
      destruct bef as [b|]; [|discriminate]. cbn in Hb. rewrite Hb, Hwx.
      cbn [xorb]. exact IH. }
    assert (Hf : freeStandingRuns bef (x :: s)
                 = if negb (isWordCharOpt bef)
                      && negb (isWordCharOpt (head (dropLetters s)))
                   then (x :: takeLetters s) :: freeStandingRuns (Some x) s
                   else freeStandingRuns (Some x) s).
    { unfold freeStandingRuns. cbn [maximalRunsFrom]. rewrite Hx, Hlb.
      cbn [andb negb List.filter]. unfold freeStanding at 1.
      cbn [runBefore runAfter dropLetters takeLetters]. rewrite Hx.
      by destruct (negb (isWordCharOpt bef)
                   && negb (isWordCharOpt (head (dropLetters s)))). }
    rewrite Hf. clear Hf.
    rewrite (lettersThenBoundary_ascii x s Hx Ha).
    unfold atWordBoundary, wordBefore, wordAfter. cbn [before after].
    rewrite Hwx.
    change (match bef with Some r => isWordChar r | None => false end)
      with (isWordCharOpt bef).
    destruct (isWordCharOpt bef) eqn:Hwb; cbn [xorb negb andb]; [exact IH|].
    destruct (isWordCharOpt (head (dropLetters s))) eqn:Hwa; cbn [negb];
      [exact IH|].
    cbn [before after]. split.
    + f_equal.
      * pose proof (matched_app bef (last (x :: takeLetters s))
                      (x :: takeLetters s) (dropLetters s)) as Hm.
        rewrite <- app_comm_cons, takeLetters_dropLetters in Hm.
        by rewrite Hm.
      * unfold freeStandingRuns.
        by rewrite (maximalRunsFrom_skip s x Hx).
    + split; [intros _; by apply last_takeLetters_word|].
      by apply asciiLetters_dropLetters.
Qed.

Lemma allMatches_freeStandingRuns fuel : ∀ s bef pm,
  (length s < fuel)%nat → asciiFrom bef s →
  allMatches fuel wordRegex (Cursor bef s) pm = freeStandingRuns bef s.
Proof.
  induction fuel as [|fuel IH]; intros s bef pm Hlen Ha; [lia|].
  rewrite allMatches_wordRegex_step.
  pose proof (search_freeStandingRuns s bef Ha) as Hs.
  destruct (search wordRegex bef s) as [[b e]|] eqn:Hsearch; [|done].
  destruct Hs as [-> Ha'].
  destruct (search_wordRegex_Some _ _ _ _ Hsearch) as (Hlt & _).
  f_equal. destruct e as [bef' r]. cbn [before after] in *.
  apply IH; [lia|done].
Qed.

End TokenizerFacts.

(** ** Counting *)

Lemma wrap64_small z : - 2 ^ 63 ≤ z ≤ maxInt → wrap64 z = z.
Proof.
  unfold wrap64, maxInt. intros Hz. rewrite Z.mod_small; lia.
Qed.

Lemma countWords_snoc words w :
  countWords (words ++ [w]) = increment (countWords words) w.
Proof. unfold countWords. by rewrite foldl_app. Qed.

Lemma occurrences_snoc w words x :
  occurrences w (words ++ [x])
  = (occurrences w words + if decide (x = w) then 1 else 0)%nat.
Proof.
  unfold occurrences. rewrite filter_app, length_app. f_equal.
  rewrite filter_cons, filter_nil. by destruct (decide (x = w)).
Qed.

Lemma occurrences_le w words : (occurrences w words ≤ length words)%nat.
Proof. apply length_filter. Qed.

(** As long as the counters cannot overflow, the map holds the number of
    occurrences of every word that occurs, and nothing else. *)
Lemma countWords_lookup words :
  Z.of_nat (length words) ≤ maxInt →
  ∀ w, countWords words !! w
       = if decide (occurrences w words = 0%nat) then None
         else Some (Z.of_nat (occurrences w words)).
Proof.
  induction words as [|x words IH] using rev_ind; intros Hlen w.
  - unfold countWords. simpl. by rewrite lookup_empty.
  - rewrite length_app in Hlen. simpl in Hlen.
    rewrite countWords_snoc, occurrences_snoc. unfold increment.
    destruct (decide (x = w)) as [->|Hne].
    + rewrite lookup_insert_eq, IH by lia.
      pose proof (occurrences_le w words).
      destruct (decide (occurrences w words = 0%nat)) as [->|?];
        (destruct (decide _); [lia|]); simpl; rewrite wrap64_small;
        unfold maxInt in *; f_equal; lia.
    + rewrite lookup_insert_ne by done. rewrite IH by lia.
      by rewrite Nat.add_0_r.
Qed.

Lemma dom_countWords words :
  dom (countWords words) = (list_to_set words : gset (list Z)).
Proof.
  induction words as [|x words IH] using rev_ind.
  - unfold countWords. simpl. apply dom_empty_L.
  - rewrite countWords_snoc. unfold increment.
    rewrite dom_insert_L, IH, list_to_set_app_L. simpl.
    rewrite (right_id_L ∅ (∪)). apply (comm_L (∪)).
Qed.

Lemma countWords_is_Some words w :
  is_Some (countWords words !! w) ↔ w ∈ words.
Proof.
  rewrite <- elem_of_dom, dom_countWords. apply elem_of_list_to_set.
Qed.

Global Instance sumFrequencies_perm : Proper ((≡ₚ) ==> (=)) sumFrequencies.
Proof.
  unfold sumFrequencies. induction 1; simpl; lia.
Qed.

Lemma sumFrequencies_insert (m : gmap (list Z) Z) w v :
  sumFrequencies (map entry (map_to_list (<[w := v]> m)))
  = v - default 0 (m !! w) + sumFrequencies (map entry (map_to_list m)).
Proof.
  destruct (m !! w) as [c|] eqn:Hw.
  - rewrite <- (insert_delete_eq m w v).
    rewrite map_to_list_insert by apply lookup_delete_eq.
    rewrite <- (map_to_list_delete m w c Hw). simpl. lia.
  - rewrite map_to_list_insert by done. simpl. lia.
Qed.

Lemma sumFrequencies_countWords words :
  Z.of_nat (length words) ≤ maxInt →
  sumFrequencies (map entry (map_to_list (countWords words)))
  = Z.of_nat (length words).
Proof.
  induction words as [|x words IH] using rev_ind; intros Hlen.
  - unfold countWords. simpl. by rewrite map_to_list_empty.
  - rewrite length_app in *. simpl in Hlen.
    rewrite countWords_snoc. unfold increment.
    rewrite sumFrequencies_insert, IH by lia.
    rewrite (countWords_lookup words) by lia.
    pose proof (occurrences_le x words).
    destruct (decide _) as [Hz|Hz]; simpl; rewrite wrap64_small;
      unfold maxInt in *; simpl; lia.
Qed.

(** ** Sorting *)

Lemma byFrequency_strict_weak : StrictWeakOrder byFrequency.
Proof.
  unfold byFrequency. split.
  - intros x. apply Z.ltb_irrefl.
  - intros x y z ?%Z.ltb_lt ?%Z.ltb_lt. apply Z.ltb_lt. lia.
  - intros x y z ?%Z.ltb_ge ?%Z.ltb_ge ?%Z.ltb_ge ?%Z.ltb_ge.
    split; apply Z.ltb_ge; lia.
Qed.

(** ** The tokenizer (C1) *)

(** C1, as stated, fails: in the text [abc123] the letters [abc] are a maximal
    run of letters, yet the tokenizer returns no token, because the run is
    followed by a digit and [\b] finds no word boundary between them. *)
Lemma tokenize_drops_run_before_digit :
  tokenize (H := latin1) (runes "abc123") = []
  ∧ map runText (maximalLetterRuns (H := latin1)
                   (ToLower (H := latin1) (runes "abc123")))
    = [runes "abc"].
Proof. split; vm_compute; reflexivity. Qed.

(** C1, amended: the tokens are non-empty pieces of the lowercased text that
    follow one another in it, left to right, and consist of letters only (no
    other character is ever part of a token); and when all the letters of the
    lowercased text are ASCII letters, the tokens are exactly, in
    left-to-right order, the maximal runs of letters that have no ASCII digit
    or underscore immediately before or after them. *)
Theorem tokenize_free_standing_runs `{Unicode} (text : list rune) :
  occurInOrder (tokenize text) (ToLower text)
  ∧ Forall (fun t => t ≠ [] ∧ Forall (fun c => isLetter c = true) t)
      (tokenize text)
  ∧ (asciiLetters (ToLower text) →
     tokenize text
     = map runText
         (List.filter freeStanding (maximalLetterRuns (ToLower text)))).
Proof.
  unfold tokenize, FindAllString. split; [|split].
  - apply allMatches_occurInOrder.
  - apply allMatches_letters.
  - intros Ha. apply allMatches_freeStandingRuns; [lia|].
    split; [discriminate|exact Ha].
Qed.

(** The tokenizer on the scenario of the specification. *)
Lemma tokenize_free_standing_runs_witness :
  asciiLetters (H := latin1)
    (ToLower (H := latin1) (runes "The cat sat on the mat. THE CAT ran."))
  ∧ tokenize (H := latin1) (runes "The cat sat on the mat. THE CAT ran.")
    = map runes ["the"; "cat"; "sat"; "on"; "the"; "mat"; "the"; "cat"; "ran"].
Proof.
  assert (Ha : asciiLetters (H := latin1)
            (ToLower (H := latin1) (runes "The cat sat on the mat. THE CAT ran."))).
  { unfold asciiLetters. vm_compute ToLower.
    repeat (constructor; [vm_compute; auto|]). constructor. }
  split; [exact Ha|].
  rewrite (proj2 (proj2 (tokenize_free_standing_runs (H := latin1) _)) Ha).
  vm_compute. reflexivity.
Defined.

(** The text [abc123] gives no token under any tables that treat the ASCII
    lowercase letters as letters that are their own lowercase, and the ASCII
    digits as non-letters that are their own lowercase, as Go's do. *)
Lemma digit_adjacent_run_dropped_for_all_tables `{Unicode} :
  (∀ r, 97 ≤ r ≤ 122 → isLetter r = true ∧ toLower r = r) →
  (∀ r, 48 ≤ r ≤ 57 → isLetter r = false ∧ toLower r = r) →
  tokenize (runes "abc123") = []
  ∧ map runText (maximalLetterRuns (ToLower (runes "abc123"))) = [runes "abc"].
Proof.
  intros Hletter Hdigit.
  assert (Hl : ∀ r, 97 ≤ r ≤ 122 → toLower r = r) by (intros; by apply Hletter).
  assert (Hd : ∀ r, 48 ≤ r ≤ 57 → toLower r = r) by (intros; by apply Hdigit).
  assert (Hil : ∀ r, 97 ≤ r ≤ 122 → isLetter r = true)
    by (intros; by apply Hletter).
  assert (Hid : ∀ r, 48 ≤ r ≤ 57 → isLetter r = false)
    by (intros; by apply Hdigit).
  unfold tokenize, ToLower.
  change (runes "abc123") with [97; 98; 99; 49; 50; 51]. cbn [map].
  rewrite !Hl, !Hd by lia.
  split.
  - unfold FindAllString. rewrite allMatches_wordRegex_step.
    cbn [search]. rewrite !matchAt_wordRegex. cbn [lettersThenBoundary].
    rewrite !Hil, !Hid by lia.
    repeat match goal with
           | |- context [atWordBoundary ?c] =>
               let v := eval vm_compute in (atWordBoundary c) in
               change (atWordBoundary c) with v
           end.
    reflexivity.
  - unfold maximalLetterRuns.
    cbn [maximalRunsFrom takeLetters dropLetters isLetterOpt].
    rewrite !Hil, !Hid by lia. reflexivity.
Qed.

(** Texts with other letters are another matter: a word boundary separates
    an ASCII letter from a non-ASCII letter, so [café] gives the token [caf]
    and [été] the token [t]. *)
Example tokenize_cuts_at_non_ascii_letters :
  tokenize (H := latin1) [99; 97; 102; 233] = [runes "caf"]
  ∧ tokenize (H := latin1) [233; 116; 233] = [runes "t"].
Proof. split; vm_compute; reflexivity. Qed.

Example tokenize_underscore_and_digits :
  tokenize (H := latin1) (runes "snake_case x1 y") = [runes "y"].
Proof. vm_compute. reflexivity. Qed.

(** ** Aggregation (C3, C4, C5) *)

Section AggregateFacts.
Context (sched : Schedule).

(** Whatever the schedule, the result is a rearrangement of the entries of
    the counting map. *)
Lemma aggregate_perm words :
  aggregate sched words ≡ₚ map entry (map_to_list (countWords words)).
Proof.
  unfold aggregate. rewrite sortSlice_perm. by rewrite mapOrder_perm.
Qed.

Lemma aggregate_sorted words :
  Sorted (fun a b => Frequency b ≤ Frequency a) (aggregate sched words).
Proof.
  pose proof (sortSlice_sorted sched byFrequency
                (map entry (mapOrder sched (countWords words)))
                byFrequency_strict_weak) as Hs.
  unfold aggregate, SliceIsSorted, byFrequency in *.
  induction Hs as [|x l Hl IH Hhd]; constructor; [exact IH|].
  destruct Hhd as [|y l Hxy]; constructor. by apply Z.ltb_ge.
Qed.

Lemma aggregate_elem_of words wf :
  wf ∈ aggregate sched words ↔ countWords words !! Word wf = Some (Frequency wf).
Proof.
  rewrite aggregate_perm, list_elem_of_fmap. split.
  - intros ([w c] & -> & Hin). by apply elem_of_map_to_list in Hin.
  - intros Hl. exists (Word wf, Frequency wf). split; [by destruct wf|].
    by apply elem_of_map_to_list.
Qed.

Lemma aggregate_words words :
  map Word (aggregate sched words) ≡ₚ (map_to_list (countWords words)).*1.
Proof.
  rewrite aggregate_perm.
  induction (map_to_list (countWords words)) as [|[w c] l IH]; [done|].
  simpl. by rewrite IH.
Qed.

Lemma aggregate_nil : aggregate sched [] = [].
Proof.
  apply Permutation_nil_r. rewrite aggregate_perm.
  unfold countWords. simpl. by rewrite map_to_list_empty.
Qed.

End AggregateFacts.

Lemma tokenize_nil `{Unicode} : tokenize [] = [].
Proof. reflexivity. Qed.

Lemma tokenize_length `{Unicode} text : (length (tokenize text) ≤ length text)%nat.
Proof.
  unfold tokenize, FindAllString. etrans; [apply allMatches_length|].
  unfold ToLower. by rewrite length_map.
Qed.

(** C3, as stated, fails: for the tokens [a], [b] one run of [aggregate] may
    return [b] before [a] and another [a] before [b]; the two words have the
    same frequency, the map may be visited in either order and the sort keeps
    the order it is given. The first result is not in lexicographic order. *)
Lemma aggregate_order_of_ties_varies :
  aggregate forwardSchedule [runes "a"; runes "b"]
  = [ {| Word := runes "b"; Frequency := 1 |};
      {| Word := runes "a"; Frequency := 1 |} ]
  ∧ aggregate backwardSchedule [runes "a"; runes "b"]
    = [ {| Word := runes "a"; Frequency := 1 |};
        {| Word := runes "b"; Frequency := 1 |} ].
Proof. split; vm_compute; reflexivity. Qed.

(** C3, amended: two runs of [aggregate] on the same tokens return the same
    entries, and the same sequence of frequencies; they can differ only in
    the order of entries of equal frequency, for which the code has no
    secondary ordering. *)
Theorem aggregate_runs_agree_up_to_ties (sched1 sched2 : Schedule)
    (words : list (list rune)) :
  aggregate sched1 words ≡ₚ aggregate sched2 words
  ∧ map Frequency (aggregate sched1 words)
    = map Frequency (aggregate sched2 words).
Proof.
  assert (Hp : aggregate sched1 words ≡ₚ aggregate sched2 words)
    by (by rewrite !aggregate_perm).
  split; [exact Hp|].
  assert (Htrans : Transitive (fun x y : Z => y ≤ x)) by (intros x y z; lia).
  assert (Hanti : AntiSymm (=) (fun x y : Z => y ≤ x)) by (intros x y; lia).
  apply (Sorted_unique (fun x y : Z => y ≤ x)).
  - apply (Sorted_fmap Frequency (fun a b => Frequency b ≤ Frequency a));
      [done|apply aggregate_sorted].
  - apply (Sorted_fmap Frequency (fun a b => Frequency b ≤ Frequency a));
      [done|apply aggregate_sorted].
  - by apply fmap_Permutation.
Qed.

(** C4: the frequencies of the result add up to the number of tokens, and the
    words of the result are the distinct tokens. The bound on the number of
    tokens is the one every Go slice meets: its length is an [int]. *)
Theorem aggregate_sum_and_words (sched : Schedule) (words : list (list rune)) :
  Z.of_nat (length words) ≤ maxInt →
  sumFrequencies (aggregate sched words) = Z.of_nat (length words)
  ∧ (list_to_set (map Word (aggregate sched words)) : gset (list Z))
    = list_to_set words.
Proof.
  intros Hlen. split.
  - rewrite aggregate_perm. by apply sumFrequencies_countWords.
  - apply set_eq. intros w. rewrite !elem_of_list_to_set.
    rewrite aggregate_words, <- (countWords_is_Some words w), list_elem_of_fmap.
    split.
    + intros ([w' c] & -> & Hin). exists c. by apply elem_of_map_to_list.
    + intros [c Hc]. exists (w, c). split; [done|].
      by apply elem_of_map_to_list.
Qed.

(** Three tokens, two of them equal. *)
Lemma aggregate_sum_and_words_witness :
  Z.of_nat (length (map runes ["the"; "cat"; "the"])) ≤ maxInt
  ∧ sumFrequencies (aggregate forwardSchedule (map runes ["the"; "cat"; "the"]))
    = 3
  ∧ (list_to_set
       (map Word (aggregate forwardSchedule (map runes ["the"; "cat"; "the"])))
     : gset (list Z))
    = list_to_set (map runes ["the"; "cat"; "the"]).
Proof.
  assert (Hlen : Z.of_nat (length (map runes ["the"; "cat"; "the"])) ≤ maxInt)
    by (vm_compute; discriminate).
  split; [exact Hlen|].
  exact (aggregate_sum_and_words forwardSchedule _ Hlen).
Defined.

(** C5: every frequency sequence the pipeline produces is in non-increasing
    order of frequency, has pairwise distinct words, and has positive
    frequencies only. The bound on the text is the one every Go string
    meets: its length is an [int]. *)
Theorem processText_well_formed `{Unicode} (sched : Schedule) (text : list rune) :
  Z.of_nat (length text) ≤ maxInt →
  (∀ i a b,
     processText sched text !! i = Some a →
     processText sched text !! S i = Some b →
     Frequency a >= Frequency b)
  ∧ NoDup (map Word (processText sched text))
  ∧ Forall (fun wf => 0 < Frequency wf) (processText sched text).
Proof.
  intros Hlen. unfold processText.
  pose proof (tokenize_length text) as Htok.
  set (words := tokenize text) in *.
  split; [|split].
  - pose proof (aggregate_sorted sched words) as Hs.
    revert Hs. generalize (aggregate sched words). intros l Hs.
    induction Hs as [|x l Hl IH Hhd]; intros i a b Ha Hb; [done|].
    destruct i as [|i].
    + simpl in Ha, Hb. injection Ha as ->.
      destruct Hhd as [|y l Hxy]; [done|]. simpl in Hb. injection Hb as ->.
      lia.
    + simpl in Ha. eapply IH; [exact Ha|exact Hb].
  - rewrite aggregate_words. apply NoDup_fst_map_to_list.
  - apply Forall_forall. intros wf Hin.
    apply aggregate_elem_of in Hin.
    rewrite countWords_lookup in Hin by lia.
    destruct (decide _) as [|Hpos]; [done|]. injection Hin as Hin. lia.
Qed.

(** The pipeline on the scenario of the specification. *)
Lemma processText_well_formed_witness :
  Z.of_nat (length (runes "The cat sat on the mat. THE CAT ran.")) ≤ maxInt
  ∧ (∀ i a b,
       processText (H := latin1) forwardSchedule
         (runes "The cat sat on the mat. THE CAT ran.") !! i = Some a →
       processText (H := latin1) forwardSchedule
         (runes "The cat sat on the mat. THE CAT ran.") !! S i = Some b →
       Frequency a >= Frequency b).
Proof.
  assert (Hlen : Z.of_nat (length (runes "The cat sat on the mat. THE CAT ran."))
                 ≤ maxInt) by (vm_compute; discriminate).
  split; [exact Hlen|].
  exact (proj1 (processText_well_formed (H := latin1) forwardSchedule _ Hlen)).
Defined.

(** ** PDF extraction (C9) *)

(** The loop appends, to what the builder holds, the texts of the pages
    [i], [i+1], ... that can be extracted, in that order. *)
Lemma pageLoop_spec (reader : PDFReader) n : ∀ i text,
  - 2 ^ 63 ≤ i → i + Z.of_nat n ≤ maxInt →
  pageLoop reader n i text
  = text ++ concat (omap (GetPlainText reader)
                      (map (fun k => i + Z.of_nat k) (seq 0 n))).
Proof.
  induction n as [|n IH]; intros i text Hlo Hhi.
  - simpl. by rewrite app_nil_r.
  - cbn [pageLoop seq map]. rewrite <- seq_shift, map_map.
    rewrite Z.add_0_r, wrap64_small by lia.
    assert (Hshift : map (fun k => i + Z.of_nat (S k)) (seq 0 n)
                     = map (fun k => (i + 1) + Z.of_nat k) (seq 0 n))
      by (apply map_ext; intros k; lia).
    rewrite Hshift. cbn [omap list_omap].
    destruct (GetPlainText reader i) as [pageText|]; rewrite IH by lia.
    + simpl. by rewrite app_assoc.
    + done.
Qed.

(** C9: when the content can be read and the library accepts it as a PDF,
    the extraction succeeds, and the text is the concatenation, in the order
    of the pages [1..N], of the texts of the pages whose extraction succeeds;
    a page whose extraction fails contributes nothing. The page count is
    below the largest [int], so that the page counter does not wrap. *)
Theorem extractPDFText_concatenates_pages `{PDFLibrary} (file : File)
    (reader : PDFReader) :
  fileErr file = false →
  pdfNewReader (fileData file) = Some reader →
  NumPage reader < maxInt →
  extractPDFText file
  = (concat (omap (GetPlainText reader) (pageNumbers (NumPage reader))), None).
Proof.
  intros Hread Hpdf Hpages. unfold extractPDFText, ReadAll.
  rewrite Hread, Hpdf. f_equal.
  rewrite pageLoop_spec by (unfold maxInt in *; lia).
  unfold pageNumbers. simpl.
  rewrite <- seq_shift, map_map. do 2 f_equal.
  apply map_ext. intros k. lia.
Qed.

(** A document of three pages whose second page cannot be extracted. *)
Lemma extractPDFText_concatenates_pages_witness :
  fileErr {| fileData := runes "%PDF"; fileErr := false |} = false
  ∧ pdfNewReader (PDFLibrary := samplePDF) (runes "%PDF") = Some threePages
  ∧ NumPage threePages < maxInt
  ∧ extractPDFText (H := samplePDF) {| fileData := runes "%PDF"; fileErr := false |}
    = (runes "one three", None).
Proof.
  split; [reflexivity|]. split; [reflexivity|]. split; [reflexivity|].
  rewrite (extractPDFText_concatenates_pages (H := samplePDF)
             {| fileData := runes "%PDF"; fileErr := false |} threePages
             eq_refl eq_refl eq_refl).
  vm_compute. reflexivity.
Defined.

(** ** The store and the handlers (C2, C6, C7, C8, C10) *)

Section HandlerFacts.
Context `{Unicode} `{PDFLibrary}.

Lemma processText_nil (sched : Schedule) : processText sched [] = [].
Proof. unfold processText. rewrite tokenize_nil. apply aggregate_nil. Qed.

(** On the PDF path a failed read and a rejected document end the request
    with an error, and the store is left as it was. *)
Lemma handleUpload_pdf_error sched analysisID st file :
  fileErr file = true ∨ pdfNewReader (fileData file) = None →
  handleUpload sched analysisID st (Upload "application/pdf" file)
  = (st, httpError "Error reading file content" StatusInternalServerError).
Proof.
  intros Herr. unfold handleUpload, extractPDFText, ReadAll. cbn.
  destruct (fileErr file); [reflexivity|].
  destruct Herr as [?| ->]; [discriminate|reflexivity].
Qed.

(** C2 fails on the code for [text/plain]: when the file cannot be read, the
    request does not end with an error. The error of [io.ReadAll] is held by
    a variable of the inner block, the [err] tested afterwards is still
    [nil], and the analysis of the empty text is stored under a new
    identifier and reported as a success. *)
Theorem handleUpload_plain_read_error_is_stored sched analysisID st content :
  handleUpload sched analysisID st
    (Upload "text/plain" {| fileData := content; fileErr := true |})
  = ({| analyses :=
          <[analysisID := {| ID := analysisID; Frequencies := [] |}]>
            (analyses st) |},
     {| code := StatusOK; payload := IdJSON analysisID |}).
Proof.
  unfold handleUpload, ReadAll, storeCreate.
  change (isValidContentType "text/plain") with true.
  rewrite (bool_decide_eq_false_2 ("text/plain" = "application/pdf"))
    by discriminate.
  cbn [negb fileData fileErr]. by rewrite processText_nil.
Qed.

(** C6: an analysis created from a frequency sequence is returned by a get
    with the same identifier, with exactly that sequence. *)
Theorem storeGet_storeCreate (st : Store) (analysisID : string)
    (frequencies : list WordFrequency) :
  Frequencies <$> storeGet (storeCreate analysisID frequencies st) analysisID
  = Some frequencies
  ∧ handleGetAnalysis (storeCreate analysisID frequencies st) analysisID
    = {| code := StatusOK;
         payload := AnalysisJSON
                      {| ID := analysisID; Frequencies := frequencies |} |}.
Proof.
  unfold handleGetAnalysis, storeGet, storeCreate. cbn.
  by rewrite lookup_insert_eq.
Qed.

(** C7: an upload whose declared media type is neither [text/plain] nor
    [application/pdf] is refused, whatever the file and the libraries, and
    the store is left as it was. *)
Theorem handleUpload_unsupported_media_type sched analysisID st contentType file :
  contentType ≠ "text/plain" →
  contentType ≠ "application/pdf" →
  handleUpload sched analysisID st (Upload contentType file)
  = (st, httpError
           "Invalid file type. Only text/plain and application/pdf are supported"
           StatusBadRequest).
Proof.
  intros Htext Hpdf. unfold handleUpload, isValidContentType.
  by rewrite !bool_decide_eq_false_2.
Qed.

(** C8: a get answers not-found exactly for the identifiers that are not in
    the store, and returns an analysis exactly when it is the one stored
    under the identifier; it has an answer for every identifier. *)
Theorem handleGetAnalysis_found_iff_stored (st : Store) (id : string) :
  (id ∉ dom (analyses st)
   ↔ handleGetAnalysis st id = httpError "Analysis not found" StatusNotFound)
  ∧ (∀ a, analyses st !! id = Some a
          ↔ handleGetAnalysis st id
            = {| code := StatusOK; payload := AnalysisJSON a |}).
Proof.
  unfold handleGetAnalysis, storeGet. rewrite not_elem_of_dom.
  destruct (analyses st !! id) as [a0|]; split; try intros a;
    split; try done; intros [= ->]; done.
Qed.

Lemma handleUpload_keyedByID sched analysisID st req :
  keyedByID st → keyedByID (handleUpload sched analysisID st req).1.
Proof.
  intros Hst. unfold handleUpload.
  destruct req as [| |contentType file]; [done|done|]. cbn zeta.
  destruct (negb (isValidContentType contentType)); [done|].
  destruct (if bool_decide (contentType = "application/pdf") then _ else _)
    as [text [e|]]; [done|].
  cbn [fst]. unfold storeCreate. intros id a. cbn [analyses].
  rewrite lookup_insert. case_decide as Hid.
  - intros [= <-]. by subst.
  - apply Hst.
Qed.

Lemma serveAll_keyedByID (rs : list request) : keyedByID (serveAll rs).
Proof.
  unfold serveAll. induction rs as [|r rs IH] using rev_ind.
  - intros id a. simpl. by rewrite lookup_empty.
  - rewrite foldl_app. simpl. destruct r as [sched analysisID req|id].
    + by apply handleUpload_keyedByID.
    + exact IH.
Qed.

(** C10: in every store the server can reach, an analysis is filed under its
    own identifier, so a get that finds an analysis returns one whose
    identifier is the one asked for. *)
Theorem stored_analysis_has_key_as_ID (rs : list request) (id : string)
    (a : Analysis) :
  storeGet (serveAll rs) id = Some a → ID a = id.
Proof. apply serveAll_keyedByID. Qed.

End HandlerFacts.

(** The scenario of the specification: an upload declared as JSON. *)
Lemma handleUpload_unsupported_media_type_witness :
  "application/json" ≠ "text/plain"
  ∧ "application/json" ≠ "application/pdf"
  ∧ handleUpload (H := latin1) (H0 := samplePDF) forwardSchedule "id-1" NewStore
      (Upload "application/json" {| fileData := runes "{}"; fileErr := false |})
    = (NewStore,
       httpError
         "Invalid file type. Only text/plain and application/pdf are supported"
         StatusBadRequest).
Proof.
  assert (Htext : "application/json" ≠ "text/plain") by discriminate.
  assert (Hpdf : "application/json" ≠ "application/pdf") by discriminate.
  split; [exact Htext|]. split; [exact Hpdf|].
  exact (handleUpload_unsupported_media_type (H := latin1) (H0 := samplePDF)
           forwardSchedule "id-1" NewStore "application/json" _ Htext Hpdf).
Defined.

(** The store after one upload. *)
Lemma stored_analysis_has_key_as_ID_witness :
  storeGet
    (serveAll (H := latin1) (H0 := samplePDF)
       [PostUpload forwardSchedule "id-1"
          (Upload "text/plain" {| fileData := runes "a b a"; fileErr := false |})])
    "id-1"
  = Some {| ID := "id-1";
            Frequencies := [ {| Word := runes "a"; Frequency := 2 |};
                             {| Word := runes "b"; Frequency := 1 |} ] |}
  ∧ ID {| ID := "id-1";
          Frequencies := [ {| Word := runes "a"; Frequency := 2 |};
                           {| Word := runes "b"; Frequency := 1 |} ] |}
    = "id-1".
Proof.
  assert (Hget :
    storeGet
      (serveAll (H := latin1) (H0 := samplePDF)
         [PostUpload forwardSchedule "id-1"
            (Upload "text/plain" {| fileData := runes "a b a"; fileErr := false |})])
      "id-1"
    = Some {| ID := "id-1";
              Frequencies := [ {| Word := runes "a"; Frequency := 2 |};
                               {| Word := runes "b"; Frequency := 1 |} ] |})
    by (vm_compute; reflexivity).
  split; [exact Hget|].
  exact (stored_analysis_has_key_as_ID (H := latin1) (H0 := samplePDF) _ _ _ Hget).
Defined.

(** ** Scenarios of the specification *)

Example scenario_frequencies :
  processText (H := latin1) forwardSchedule
    (runes "The cat sat on the mat. THE CAT ran.")
  = [ {| Word := runes "the"; Frequency := 3 |};
      {| Word := runes "cat"; Frequency := 2 |};
      {| Word := runes "sat"; Frequency := 1 |};
      {| Word := runes "mat"; Frequency := 1 |};
      {| Word := runes "on"; Frequency := 1 |};
      {| Word := runes "ran"; Frequency := 1 |} ].
Proof. vm_compute. reflexivity. Qed.

Example scenario_empty_text :
  handleUpload (H := latin1) (H0 := samplePDF) forwardSchedule "id-1" NewStore
    (Upload "text/plain" {| fileData := []; fileErr := false |})
  = (storeCreate "id-1" [] NewStore,
     {| code := StatusOK; payload := IdJSON "id-1" |}).
Proof. vm_compute. reflexivity. Qed.

Example scenario_pdf_upload :
  (handleUpload (H := latin1) (H0 := samplePDF) forwardSchedule "id-2" NewStore
     (Upload "application/pdf" {| fileData := runes "%PDF"; fileErr := false |})).1
  = storeCreate "id-2"
      [ {| Word := runes "one"; Frequency := 1 |};
        {| Word := runes "three"; Frequency := 1 |} ] NewStore.
Proof. vm_compute. reflexivity. Qed.

(** * Further properties of the code *)

(** ** The tokenizer *)

Section SeparatorFacts.
Context `{Unicode}.
Context (sep : rune) (s2 : list rune).
Context (Hsep_letter : isLetter sep = false) (Hsep_word : isWordChar sep = false).

Lemma atWordBoundary_before_separator bef s :
  atWordBoundary (Cursor bef (s ++ sep :: s2)) = atWordBoundary (Cursor bef s).
Proof.
  unfold atWordBoundary, wordAfter. cbn [after].
  destruct s as [|x s]; [|reflexivity]. simpl. by rewrite Hsep_word.
Qed.

Lemma lettersThenBoundary_before_separator s :
  lettersThenBoundary (s ++ sep :: s2)
  = extendCursor sep s2 <$> lettersThenBoundary s.
Proof.
  induction s as [|x s IH].
  - simpl. by rewrite Hsep_letter.
  - cbn [app lettersThenBoundary]. destruct (isLetter x); [|reflexivity].
    rewrite IH. destruct (lettersThenBoundary s); [reflexivity|].
    cbn [fmap option_fmap option_map].
    rewrite atWordBoundary_before_separator.
    by destruct (atWordBoundary _).
Qed.

Lemma matchAt_before_separator bef s :
  matchAt wordRegex (Cursor bef (s ++ sep :: s2))
  = extendCursor sep s2 <$> matchAt wordRegex (Cursor bef s).
Proof.
  rewrite !matchAt_wordRegex, atWordBoundary_before_separator.
  destruct (atWordBoundary _); [|reflexivity].
  apply lettersThenBoundary_before_separator.
Qed.

(** A search in the text before the separator finds the same match with or
    without what follows; a search that finds nothing there goes on after
    the separator. *)
Lemma search_before_separator s : ∀ bef,
  search wordRegex bef (s ++ sep :: s2)
  = match search wordRegex bef s with
    | Some (b, e) => Some (extendCursor sep s2 b, extendCursor sep s2 e)
    | None => search wordRegex (Some sep) s2
    end.
Proof.
  induction s as [|x s IH]; intros bef.
  - cbn [app search]. rewrite !matchAt_wordRegex.
    cbn [lettersThenBoundary]. rewrite Hsep_letter.
    by destruct (atWordBoundary _), (atWordBoundary _).
  - change ((x :: s) ++ sep :: s2) with (x :: (s ++ sep :: s2)).
    cbn [search].
    change (x :: (s ++ sep :: s2)) with ((x :: s) ++ sep :: s2).
    rewrite matchAt_before_separator.
    destruct (matchAt wordRegex (Cursor bef (x :: s))); [reflexivity|].
    cbn [fmap option_fmap option_map]. apply IH.
Qed.

Lemma matched_extendCursor b e :
  matched (extendCursor sep s2 b) (extendCursor sep s2 e) = matched b e.
Proof.
  unfold matched, extendCursor. cbn [after]. rewrite !length_app.
  replace (length (after b) + length (sep :: s2)
           - (length (after e) + length (sep :: s2)))%nat
    with (length (after b) - length (after e))%nat by lia.
  apply take_app_le. lia.
Qed.

(** After the separator the scan is the one of a text that starts there. *)
Lemma search_after_separator s :
  match search wordRegex (Some sep) s, search wordRegex None s with
  | Some (b, e), Some (b', e') => after b = after b' ∧ e = e'
  | None, None => True
  | _, _ => False
  end.
Proof.
  destruct s as [|x s]; cbn [search]; rewrite !matchAt_wordRegex.
  - unfold atWordBoundary, wordBefore, wordAfter. cbn. by rewrite Hsep_word.
  - assert (Hwb : atWordBoundary (Cursor (Some sep) (x :: s))
                  = atWordBoundary (Cursor None (x :: s))).
    { unfold atWordBoundary, wordBefore. cbn. by rewrite Hsep_word. }
    rewrite Hwb.
    destruct (if atWordBoundary _ then _ else None) as [e|]; [done|].
    by destruct (search wordRegex (Some x) s) as [[b e]|].
Qed.

End SeparatorFacts.

Section TokenizerComposition.
Context `{Unicode}.

(** Any fuel above the length of the text gives the same tokens. *)
Lemma allMatches_fuel fuel1 : ∀ fuel2 s bef pm1 pm2,
  (length s < fuel1)%nat → (length s < fuel2)%nat →
  allMatches fuel1 wordRegex (Cursor bef s) pm1
  = allMatches fuel2 wordRegex (Cursor bef s) pm2.
Proof.
  induction fuel1 as [|fuel1 IH]; intros fuel2 s bef pm1 pm2 H1 H2; [lia|].
  destruct fuel2 as [|fuel2]; [lia|].
  rewrite !allMatches_wordRegex_step.
  destruct (search wordRegex bef s) as [[b e]|] eqn:Hs; [|reflexivity].
  destruct (search_wordRegex_Some _ _ _ _ Hs) as (Hlt & _).
  destruct e as [bef' r]. cbn [after] in *. f_equal. apply IH; lia.
Qed.

Lemma allMatches_after_separator sep fuel s pm1 pm2 :
  isWordChar sep = false →
  allMatches fuel wordRegex (Cursor (Some sep) s) pm1
  = allMatches fuel wordRegex (Cursor None s) pm2.
Proof.
  intros Hsep. destruct fuel as [|fuel]; [reflexivity|].
  rewrite !allMatches_wordRegex_step.
  pose proof (search_after_separator sep Hsep s) as Hs.
  destruct (search wordRegex (Some sep) s) as [[b e]|],
           (search wordRegex None s) as [[b' e']|]; try done.
  destruct Hs as [Hb <-]. unfold matched. by rewrite Hb.
Qed.

(** The tokens of a text, a separator and another text are the tokens of
    the first text followed by the tokens of the second. *)
Lemma allMatches_separated sep s2 :
  isLetter sep = false → isWordChar sep = false →
  ∀ n s bef fuel fuel1 fuel2 pm pm1 pm2,
    (length s ≤ n)%nat →
    (length (s ++ sep :: s2) < fuel)%nat →
    (length s < fuel1)%nat → (length s2 < fuel2)%nat →
    allMatches fuel wordRegex (Cursor bef (s ++ sep :: s2)) pm
    = allMatches fuel1 wordRegex (Cursor bef s) pm1
      ++ allMatches fuel2 wordRegex (Cursor None s2) pm2.
Proof.
  intros Hletter Hword. induction n as [|n IH];
    intros s bef fuel fuel1 fuel2 pm pm1 pm2 Hn Hf Hf1 Hf2.
  - destruct s; [|simpl in Hn; lia].
    destruct fuel as [|fuel]; [lia|]. destruct fuel1 as [|fuel1]; [lia|].
    rewrite (allMatches_wordRegex_step fuel), (allMatches_wordRegex_step fuel1).
    rewrite (search_before_separator sep s2 Hletter Hword []).
    destruct (search wordRegex bef []) as [[b e]|] eqn:Hs.
    { destruct (search_wordRegex_Some _ _ _ _ Hs) as (Hlt & _).
      simpl in Hlt. lia. }
    rewrite <- (allMatches_wordRegex_step fuel (Some sep) s2 pm).
    rewrite (allMatches_after_separator sep (S fuel) s2 pm pm2 Hword).
    simpl in Hf. apply allMatches_fuel; lia.
  - destruct fuel as [|fuel]; [lia|]. destruct fuel1 as [|fuel1]; [lia|].
    rewrite (allMatches_wordRegex_step fuel), (allMatches_wordRegex_step fuel1).
    rewrite (search_before_separator sep s2 Hletter Hword s).
    destruct (search wordRegex bef s) as [[b e]|] eqn:Hs.
    + destruct (search_wordRegex_Some _ _ _ _ Hs) as (Hlt & _).
      rewrite matched_extendCursor. cbn [app]. f_equal.
      destruct e as [bef' r]. unfold extendCursor. cbn [before after] in *.
      rewrite length_app in Hf.
      apply IH; [lia| |lia|lia]. rewrite length_app. lia.
    + rewrite <- (allMatches_wordRegex_step fuel (Some sep) s2 pm).
      rewrite (allMatches_after_separator sep (S fuel) s2 pm pm2 Hword).
      rewrite length_app in Hf. simpl in Hf. apply allMatches_fuel; lia.
Qed.

Lemma filter_all_true {A} (f : A → bool) (l : list A) :
  Forall (fun x => f x = true) l → List.filter f l = l.
Proof.
  induction 1 as [|x l Hx Hl IH]; [reflexivity|].
  simpl. rewrite Hx. by rewrite IH.
Qed.

Lemma head_dropLetters s y :
  head (dropLetters s) = Some y → isLetter y = false ∧ y ∈ s.
Proof.
  induction s as [|x s IH]; [discriminate|]. cbn [dropLetters].
  destruct (isLetter x) eqn:Hx.
  - intros Hy. destruct (IH Hy). split; [done|by right].
  - intros [= ->]. split; [done|by left].
Qed.

(** Where the only word characters are letters, every maximal run is
    free-standing. *)
Lemma maximalRunsFrom_freeStanding s : ∀ prev,
  (isWordCharOpt prev = true → isLetterOpt prev = true) →
  Forall (fun c => isWordChar c = true → isLetter c = true) s →
  Forall (fun r => freeStanding r = true) (maximalRunsFrom prev s).
Proof.
  induction s as [|x s IH]; intros prev Hprev Hs; [constructor|].
  inversion Hs as [|? ? Hx Hs']; subst.
  cbn [maximalRunsFrom].
  destruct (isLetter x && negb (isLetterOpt prev)) eqn:Hstart;
    [|by apply IH].
  constructor; [|by apply IH].
  apply andb_prop in Hstart as [_ Hnl]. apply negb_true_iff in Hnl.
  unfold freeStanding. cbn [runBefore runAfter].
  apply andb_true_iff. split; apply negb_true_iff.
  - destruct (isWordCharOpt prev); [|done]. rewrite Hprev in Hnl; done.
  - destruct (head (dropLetters (x :: s))) as [y|] eqn:Hy; [|done].
    apply head_dropLetters in Hy as [Hyl Hin]. simpl.
    destruct (isWordChar y) eqn:Hyw; [|done].
    rewrite Forall_forall in Hs. rewrite (Hs y Hin Hyw) in Hyl. done.
Qed.

Lemma occurInOrder_elem_of t ts s c :
  occurInOrder (t :: ts) s → c ∈ t → c ∈ s.
Proof.
  inversion 1; subst. intros Hc. rewrite !elem_of_app. auto.
Qed.

End TokenizerComposition.

(** X1: two texts joined by a character whose lowercase is neither a letter
    nor an ASCII word character are tokenized one after the other: the
    tokens are those of the first text followed by those of the second. *)
Theorem tokenize_separated `{Unicode} (t1 t2 : list rune) (c : rune) :
  isLetter (toLower c) = false →
  isWordChar (toLower c) = false →
  tokenize (t1 ++ c :: t2) = tokenize t1 ++ tokenize t2.
Proof.
  intros Hletter Hword. unfold tokenize, FindAllString, ToLower.
  rewrite map_app. cbn [map].
  apply (allMatches_separated (toLower c) (map toLower t2) Hletter Hword
           (length (map toLower t1))); lia.
Qed.

(** Two words on either side of a space. *)
Lemma tokenize_separated_witness :
  isLetter (Unicode := latin1) (toLower (Unicode := latin1) 32) = false
  ∧ isWordChar (toLower (Unicode := latin1) 32) = false
  ∧ tokenize (H := latin1) (runes "Word count")
    = tokenize (H := latin1) (runes "Word")
      ++ tokenize (H := latin1) (runes "count").
Proof.
  split; [reflexivity|]. split; [reflexivity|].
  exact (tokenize_separated (H := latin1) (runes "Word") (runes "count") 32
           eq_refl eq_refl).
Defined.

(** X2: in a text whose letters, once lowercased, are ASCII letters and which
    has no digit or underscore, the tokens are exactly the maximal runs of
    letters of the lowercased text, left to right. *)
Theorem tokenize_maximal_runs `{Unicode} (text : list rune) :
  Forall (fun c => isLetter c = isWordChar c) (ToLower text) →
  tokenize text = map runText (maximalLetterRuns (ToLower text)).
Proof.
  intros Hsame. unfold tokenize, FindAllString, maximalLetterRuns.
  rewrite allMatches_freeStandingRuns; [|lia|].
  - unfold freeStandingRuns. rewrite filter_all_true; [done|].
    apply maximalRunsFrom_freeStanding; [discriminate|].
    eapply Forall_impl; [exact Hsame|]. intros c Hc. simpl in Hc. congruence.
  - split; [discriminate|]. unfold asciiLetters.
    eapply Forall_impl; [exact Hsame|]. intros c Hc. simpl in Hc. congruence.
Qed.

(** A sentence with punctuation and no digits. *)
Lemma tokenize_maximal_runs_witness :
  Forall (fun c => isLetter (Unicode := latin1) c = isWordChar c)
    (ToLower (H := latin1) (runes "Hello, world!"))
  ∧ tokenize (H := latin1) (runes "Hello, world!")
    = [runes "hello"; runes "world"].
Proof.
  assert (Hsame : Forall (fun c => isLetter (Unicode := latin1) c = isWordChar c)
                    (ToLower (H := latin1) (runes "Hello, world!"))).
  { vm_compute ToLower. repeat (constructor; [vm_compute; reflexivity|]).
    constructor. }
  split; [exact Hsame|].
  rewrite (tokenize_maximal_runs (H := latin1) _ Hsame).
  vm_compute. reflexivity.
Defined.

(** X3: a text that has no letter once lowercased gives an empty result,
    whatever the schedule. *)
Theorem processText_no_letters `{Unicode} (sched : Schedule) (text : list rune) :
  Forall (fun c => isLetter c = false) (ToLower text) →
  processText sched text = [].
Proof.
  intros Hnone. unfold processText.
  assert (Htok : tokenize text = []).
  { pose proof (allMatches_occurInOrder (S (length (ToLower text)))
                  (ToLower text) None None) as Hocc.
    pose proof (allMatches_letters (S (length (ToLower text)))
                  (Cursor None (ToLower text)) None) as Hlet.
    unfold tokenize, FindAllString.
    destruct (allMatches _ _ _ _) as [|t ts]; [reflexivity|].
    inversion Hlet as [|? ? [Hne Ht] _]; subst.
    destruct t as [|x t]; [done|].
    inversion Ht as [|? ? Hx _]; subst.
    assert (Hin : x ∈ ToLower text)
      by (eapply occurInOrder_elem_of; [exact Hocc|by left]).
    rewrite Forall_forall in Hnone. rewrite (Hnone x Hin) in Hx. done. }
  rewrite Htok. apply aggregate_nil.
Qed.

(** Digits and punctuation only. *)
Lemma processText_no_letters_witness :
  Forall (fun c => isLetter (Unicode := latin1) c = false)
    (ToLower (H := latin1) (runes "12.5 + 7 = 19.5"))
  ∧ processText (H := latin1) forwardSchedule (runes "12.5 + 7 = 19.5") = [].
Proof.
  assert (Hnone : Forall (fun c => isLetter (Unicode := latin1) c = false)
                    (ToLower (H := latin1) (runes "12.5 + 7 = 19.5"))).
  { vm_compute ToLower. repeat (constructor; [vm_compute; reflexivity|]).
    constructor. }
  split; [exact Hnone|].
  exact (processText_no_letters (H := latin1) forwardSchedule _ Hnone).
Defined.

(** ** Aggregation *)

(** X4: every entry of the result pairs a word of the token sequence with
    the number of times it occurs there, and every word that occurs has such
    an entry. The bound on the number of tokens is the one of a Go slice. *)
Theorem aggregate_counts_occurrences (sched : Schedule)
    (words : list (list rune)) :
  Z.of_nat (length words) ≤ maxInt →
  ∀ w c, {| Word := w; Frequency := c |} ∈ aggregate sched words
         ↔ w ∈ words ∧ c = Z.of_nat (occurrences w words).
Proof.
  intros Hlen w c. rewrite aggregate_elem_of. cbn [Word Frequency].
  rewrite <- countWords_is_Some, (countWords_lookup words Hlen w).
  destruct (decide (occurrences w words = 0%nat)) as [Hz|Hz]; split.
  - discriminate.
  - intros [[x Hx] _]. discriminate.
  - intros [= <-]. split; [by eexists|done].
  - intros [_ ->]. reflexivity.
Qed.

(** Three tokens, two of them equal. *)
Lemma aggregate_counts_occurrences_witness :
  Z.of_nat (length (map runes ["the"; "cat"; "the"])) ≤ maxInt
  ∧ ({| Word := runes "the"; Frequency := 2 |}
       ∈ aggregate forwardSchedule (map runes ["the"; "cat"; "the"])
     ↔ runes "the" ∈ map runes ["the"; "cat"; "the"]
       ∧ 2 = Z.of_nat (occurrences (runes "the")
                         (map runes ["the"; "cat"; "the"]))).
Proof.
  assert (Hlen : Z.of_nat (length (map runes ["the"; "cat"; "the"])) ≤ maxInt)
    by (vm_compute; discriminate).
  split; [exact Hlen|].
  exact (aggregate_counts_occurrences forwardSchedule _ Hlen (runes "the") 2).
Defined.

Lemma occurrences_perm w words1 words2 :
  words1 ≡ₚ words2 → occurrences w words1 = occurrences w words2.
Proof. unfold occurrences. by intros ->. Qed.

(** X5: the order of the tokens does not matter: two token sequences that
    are rearrangements of each other give the same entries, in whatever
    schedules the two runs are made. *)
Theorem aggregate_token_order_irrelevant (sched1 sched2 : Schedule)
    (words1 words2 : list (list rune)) :
  Z.of_nat (length words1) ≤ maxInt →
  words1 ≡ₚ words2 →
  aggregate sched1 words1 ≡ₚ aggregate sched2 words2.
Proof.
  intros Hlen Hperm. rewrite !aggregate_perm.
  assert (Hmap : countWords words1 = countWords words2).
  { apply map_eq. intros w. rewrite !countWords_lookup.
    - by rewrite (occurrences_perm w _ _ Hperm).
    - by rewrite <- Hperm.
    - done. }
  by rewrite Hmap.
Qed.

(** The same three tokens in two orders. *)
Lemma aggregate_token_order_irrelevant_witness :
  Z.of_nat (length (map runes ["the"; "cat"; "the"])) ≤ maxInt
  ∧ map runes ["the"; "cat"; "the"] ≡ₚ map runes ["the"; "the"; "cat"]
  ∧ aggregate forwardSchedule (map runes ["the"; "cat"; "the"])
    ≡ₚ aggregate backwardSchedule (map runes ["the"; "the"; "cat"]).
Proof.
  assert (Hlen : Z.of_nat (length (map runes ["the"; "cat"; "the"])) ≤ maxInt)
    by (vm_compute; discriminate).
  assert (Hperm : map runes ["the"; "cat"; "the"]
                  ≡ₚ map runes ["the"; "the"; "cat"])
    by (simpl; apply perm_skip, perm_swap).
  split; [exact Hlen|]. split; [exact Hperm|].
  exact (aggregate_token_order_irrelevant forwardSchedule backwardSchedule
           _ _ Hlen Hperm).
Defined.

(** X6: the result has one entry for each distinct token. *)
Theorem aggregate_one_entry_per_word (sched : Schedule)
    (words : list (list rune)) :
  length (aggregate sched words) = size (list_to_set words : gset (list Z)).
Proof.
  rewrite (Permutation_length (aggregate_perm sched words)).
  rewrite length_map, length_map_to_list.
  rewrite <- dom_countWords. symmetry. apply size_dom.
Qed.

(** ** The handlers and the store *)

Section ServerFacts.
Context `{Unicode} `{PDFLibrary}.

(** An upload leaves the store as it was, or files the analysis of some text
    under the identifier it was given. *)
Lemma handleUpload_store sched analysisID st req :
  (handleUpload sched analysisID st req).1 = st
  ∨ ∃ text, (handleUpload sched analysisID st req).1
            = storeCreate analysisID (processText sched text) st.
Proof.
  unfold handleUpload. destruct req as [| |contentType file]; [by left..|].
  cbn zeta. destruct (negb (isValidContentType contentType)); [by left|].
  destruct (if bool_decide (contentType = "application/pdf") then _ else _)
    as [text [e|]]; [by left|right; by exists text].
Qed.

Lemma serveAll_snoc rs r : serveAll (rs ++ [r]) = (serve (serveAll rs) r).1.
Proof. unfold serveAll. by rewrite foldl_app. Qed.

Lemma serve_lookup_other st r id :
  ¬ uploadsAs id r → analyses (serve st r).1 !! id = analyses st !! id.
Proof.
  destruct r as [sched analysisID req|id']; [|done]. cbn [serve uploadsAs].
  intros Hne.
  destruct (handleUpload_store sched analysisID st req) as [->|[text ->]];
    [done|].
  unfold storeCreate. cbn [analyses]. by rewrite lookup_insert_ne.
Qed.

Lemma serve_lookup_kept st r id :
  is_Some (analyses st !! id) → is_Some (analyses (serve st r).1 !! id).
Proof.
  destruct r as [sched analysisID req|id']; [|done]. cbn [serve].
  destruct (handleUpload_store sched analysisID st req) as [->|[text ->]];
    [done|].
  unfold storeCreate. cbn [analyses]. intros Hid.
  rewrite lookup_insert. by case_decide.
Qed.

Lemma extractPDFText_readable file reader :
  fileErr file = false →
  pdfNewReader (fileData file) = Some reader →
  NumPage reader < maxInt →
  extractPDFText file
  = (concat (omap (GetPlainText reader) (pageNumbers (NumPage reader))), None).
Proof.
  intros Hread Hpdf Hpages. unfold extractPDFText, ReadAll.
  rewrite Hread, Hpdf. f_equal.
  rewrite pageLoop_spec by (unfold maxInt in *; lia).
  unfold pageNumbers. simpl.
  rewrite <- seq_shift, map_map. do 2 f_equal.
  apply map_ext. intros k. lia.
Qed.


Lemma processText_wellRanked sched text : wellRanked (processText sched text).
Proof.
  unfold wellRanked, processText. split; [|split].
  - apply aggregate_sorted.
  - rewrite aggregate_words. apply NoDup_fst_map_to_list.
  - apply Forall_forall. intros wf Hin. apply aggregate_elem_of in Hin.
    assert (Hw : Word wf ∈ tokenize text)
      by (apply countWords_is_Some; by eexists).
    pose proof (allMatches_letters (S (length (ToLower text)))
                  (Cursor None (ToLower text)) None) as Hlet.
    rewrite Forall_forall in Hlet. by apply Hlet.
Qed.


(** X8: after a [text/plain] upload, a get with the identifier of the upload
    returns the analysis of the content of the file, or of the empty text
    when the file could not be read. *)
Theorem upload_plain_then_get sched analysisID st file :
  handleGetAnalysis
    (handleUpload sched analysisID st (Upload "text/plain" file)).1 analysisID
  = {| code := StatusOK;
       payload := AnalysisJSON
         {| ID := analysisID;
            Frequencies :=
              processText sched (if fileErr file then [] else fileData file) |} |}.
Proof.
  unfold handleUpload, ReadAll.
  change (isValidContentType "text/plain") with true.
  rewrite (bool_decide_eq_false_2 ("text/plain" = "application/pdf"))
    by discriminate.
  cbn [negb fst]. unfold handleGetAnalysis, storeGet, storeCreate.
  cbn [analyses]. by rewrite lookup_insert_eq.
Qed.

(** X9: after the upload of a PDF that can be read and decoded, a get with
    the identifier of the upload returns the analysis of the texts of its
    extractable pages, joined in page order with nothing between them. *)
Theorem upload_pdf_then_get sched analysisID st file reader :
  fileErr file = false →
  pdfNewReader (fileData file) = Some reader →
  NumPage reader < maxInt →
  handleGetAnalysis
    (handleUpload sched analysisID st (Upload "application/pdf" file)).1
    analysisID
  = {| code := StatusOK;
       payload := AnalysisJSON
         {| ID := analysisID;
            Frequencies :=
              processText sched
                (concat (omap (GetPlainText reader)
                           (pageNumbers (NumPage reader)))) |} |}.
Proof.
  intros Hread Hpdf Hpages. unfold handleUpload.
  change (isValidContentType "application/pdf") with true.
  rewrite (bool_decide_eq_true_2 ("application/pdf" = "application/pdf"))
    by reflexivity.
  rewrite (extractPDFText_readable file reader Hread Hpdf Hpages).
  cbn [negb fst]. unfold handleGetAnalysis, storeGet, storeCreate.
  cbn [analyses]. by rewrite lookup_insert_eq.
Qed.


(** X11: a second upload under an identifier that is already in use replaces
    the analysis filed by the first: no collision is detected, and the
    store is as if the first upload had not taken place. *)
Theorem upload_same_identifier_replaces sched1 sched2 analysisID st file1 file2 :
  (handleUpload sched2 analysisID
     (handleUpload sched1 analysisID st (Upload "text/plain" file1)).1
     (Upload "text/plain" file2)).1
  = (handleUpload sched2 analysisID st (Upload "text/plain" file2)).1.
Proof.
  unfold handleUpload, ReadAll.
  change (isValidContentType "text/plain") with true.
  rewrite (bool_decide_eq_false_2 ("text/plain" = "application/pdf"))
    by discriminate.
  cbn [negb fst]. unfold storeCreate. cbn [analyses].
  by rewrite insert_insert_eq.
Qed.

(** X12: an analysis that is in the store stays there, unchanged, as long as
    no later upload is given its identifier. *)
Theorem analysis_persists (rs rs' : list request) (id : string) (a : Analysis) :
  storeGet (serveAll rs) id = Some a →
  Forall (fun r => ¬ uploadsAs id r) rs' →
  storeGet (serveAll (rs ++ rs')) id = Some a.
Proof.
  intros Hget. induction rs' as [|r rs' IH] using rev_ind; intros Hrs'.
  - by rewrite app_nil_r.
  - apply Forall_app in Hrs' as [Hrs' Hr]. inversion Hr as [|? ? Hr' _]; subst.
    rewrite app_assoc, serveAll_snoc. unfold storeGet in *.
    rewrite serve_lookup_other by done. by apply IH.
Qed.

(** X13: the server never removes an analysis: an identifier that is in the
    store is in every later store. *)
Theorem store_never_shrinks (rs rs' : list request) :
  dom (analyses (serveAll rs)) ⊆ dom (analyses (serveAll (rs ++ rs'))).
Proof.
  induction rs' as [|r rs' IH] using rev_ind.
  - by rewrite app_nil_r.
  - rewrite app_assoc, serveAll_snoc. etrans; [exact IH|].
    intros id. rewrite !elem_of_dom. apply serve_lookup_kept.
Qed.

(** X14: the store holds at most one analysis for each upload request
    served. *)
Theorem store_size_bounded_by_uploads (rs : list request) :
  (size (analyses (serveAll rs)) ≤ length (List.filter isUpload rs))%nat.
Proof.
  induction rs as [|r rs IH] using rev_ind; [done|].
  rewrite serveAll_snoc, List.filter_app, length_app.
  destruct r as [sched analysisID req|id]; cbn [serve List.filter isUpload length].
  - destruct (handleUpload_store sched analysisID (serveAll rs) req)
      as [->|[text ->]]; [lia|].
    unfold storeCreate. cbn [analyses]. rewrite map_size_insert.
    destruct (analyses (serveAll rs) !! analysisID); unfold id; lia.
  - cbn [fst]. lia.
Qed.

(** X15: every analysis in a store the server can reach is ranked: its
    frequencies do not increase, its words are pairwise distinct, and each
    word is a non-empty sequence of letters. *)
Theorem stored_analysis_is_ranked (rs : list request) (id : string)
    (a : Analysis) :
  storeGet (serveAll rs) id = Some a → wellRanked (Frequencies a).
Proof.
  unfold storeGet. revert id a.
  induction rs as [|r rs IH] using rev_ind; intros id a.
  - unfold serveAll. simpl. by rewrite lookup_empty.
  - rewrite serveAll_snoc. destruct r as [sched analysisID req|id'];
      cbn [serve fst]; [|apply IH].
    destruct (handleUpload_store sched analysisID (serveAll rs) req)
      as [->|[text ->]]; [apply IH|].
    unfold storeCreate. cbn [analyses]. rewrite lookup_insert.
    case_decide as Hid; [|apply IH].
    intros [= <-]. cbn [Frequencies]. apply processText_wellRanked.
Qed.

End ServerFacts.

(** A document of three pages whose second page cannot be extracted. *)
Lemma upload_pdf_then_get_witness :
  fileErr {| fileData := runes "%PDF"; fileErr := false |} = false
  ∧ pdfNewReader (PDFLibrary := samplePDF) (runes "%PDF") = Some threePages
  ∧ NumPage threePages < maxInt
  ∧ handleGetAnalysis
      (handleUpload (H := latin1) (H0 := samplePDF) forwardSchedule "id-2"
         NewStore
         (Upload "application/pdf"
            {| fileData := runes "%PDF"; fileErr := false |})).1 "id-2"
    = {| code := StatusOK;
         payload := AnalysisJSON
           {| ID := "id-2";
              Frequencies :=
                processText (H := latin1) forwardSchedule
                  (concat (omap (GetPlainText threePages)
                             (pageNumbers (NumPage threePages)))) |} |}.
Proof.
  split; [reflexivity|]. split; [reflexivity|]. split; [reflexivity|].
  exact (upload_pdf_then_get (H := latin1) (H0 := samplePDF) forwardSchedule
           "id-2" NewStore {| fileData := runes "%PDF"; fileErr := false |}
           threePages eq_refl eq_refl eq_refl).
Defined.


(** X16: on the PDF path a file that cannot be read, or that the library
    does not accept as a PDF, ends the request with status 500 and leaves
    the store as it was. *)
Theorem upload_pdf_failure_is_reported `{Unicode} `{PDFLibrary}
    sched analysisID st file :
  fileErr file = true ∨ pdfNewReader (fileData file) = None →
  handleUpload sched analysisID st (Upload "application/pdf" file)
  = (st, httpError "Error reading file content" StatusInternalServerError).
Proof.
  intros Herr. unfold handleUpload, extractPDFText, ReadAll.
  change (isValidContentType "application/pdf") with true.
  rewrite (bool_decide_eq_true_2 ("application/pdf" = "application/pdf"))
    by reflexivity.
  cbn [negb]. destruct (fileErr file); [reflexivity|].
  destruct Herr as [?| ->]; [discriminate|reflexivity].
Qed.

(** A PDF upload whose reader fails. *)
Lemma upload_pdf_failure_is_reported_witness :
  (fileErr {| fileData := runes "%PDF"; fileErr := true |} = true
   ∨ pdfNewReader (PDFLibrary := samplePDF) (runes "%PDF") = None)
  ∧ handleUpload (H := latin1) (H0 := samplePDF) forwardSchedule "id-4" NewStore
      (Upload "application/pdf" {| fileData := runes "%PDF"; fileErr := true |})
    = (NewStore,
       httpError "Error reading file content" StatusInternalServerError).
Proof.
  assert (Herr : fileErr {| fileData := runes "%PDF"; fileErr := true |} = true
                 ∨ pdfNewReader (PDFLibrary := samplePDF) (runes "%PDF") = None)
    by (left; reflexivity).
  split; [exact Herr|].
  exact (upload_pdf_failure_is_reported (H := latin1) (H0 := samplePDF)
           forwardSchedule "id-4" NewStore _ Herr).
Defined.

(** One upload, then a get and an upload under another identifier. *)
Lemma analysis_persists_witness :
  storeGet
    (serveAll (H := latin1) (H0 := samplePDF)
       [PostUpload forwardSchedule "id-1"
          (Upload "text/plain" {| fileData := runes "a b a"; fileErr := false |})])
    "id-1"
  = Some {| ID := "id-1";
            Frequencies := [ {| Word := runes "a"; Frequency := 2 |};
                             {| Word := runes "b"; Frequency := 1 |} ] |}
  ∧ Forall (fun r => ¬ uploadsAs "id-1" r)
      [GetAnalysis "id-1";
       PostUpload forwardSchedule "id-2"
         (Upload "text/plain" {| fileData := runes "c"; fileErr := false |})]
  ∧ storeGet
      (serveAll (H := latin1) (H0 := samplePDF)
         ([PostUpload forwardSchedule "id-1"
             (Upload "text/plain"
                {| fileData := runes "a b a"; fileErr := false |})]
          ++ [GetAnalysis "id-1";
              PostUpload forwardSchedule "id-2"
                (Upload "text/plain"
                   {| fileData := runes "c"; fileErr := false |})]))
      "id-1"
    = Some {| ID := "id-1";
              Frequencies := [ {| Word := runes "a"; Frequency := 2 |};
                               {| Word := runes "b"; Frequency := 1 |} ] |}.
Proof.
  assert (Hget :
    storeGet
      (serveAll (H := latin1) (H0 := samplePDF)
         [PostUpload forwardSchedule "id-1"
            (Upload "text/plain"
               {| fileData := runes "a b a"; fileErr := false |})])
      "id-1"
    = Some {| ID := "id-1";
              Frequencies := [ {| Word := runes "a"; Frequency := 2 |};
                               {| Word := runes "b"; Frequency := 1 |} ] |})
    by (vm_compute; reflexivity).
  assert (Hlater : Forall (fun r => ¬ uploadsAs "id-1" r)
      [GetAnalysis "id-1";
       PostUpload forwardSchedule "id-2"
         (Upload "text/plain" {| fileData := runes "c"; fileErr := false |})]).
  { constructor; [intros []|]. constructor; [discriminate|constructor]. }
  split; [exact Hget|]. split; [exact Hlater|].
  exact (analysis_persists (H := latin1) (H0 := samplePDF) _ _ _ _ Hget Hlater).
Defined.

(** The store after one upload. *)
Lemma stored_analysis_is_ranked_witness :
  storeGet
    (serveAll (H := latin1) (H0 := samplePDF)
       [PostUpload forwardSchedule "id-1"
          (Upload "text/plain" {| fileData := runes "a b a"; fileErr := false |})])
    "id-1"
  = Some {| ID := "id-1";
            Frequencies := [ {| Word := runes "a"; Frequency := 2 |};
                             {| Word := runes "b"; Frequency := 1 |} ] |}
  ∧ wellRanked (H := latin1)
      [ {| Word := runes "a"; Frequency := 2 |};
        {| Word := runes "b"; Frequency := 1 |} ].
Proof.
  assert (Hget :
    storeGet
      (serveAll (H := latin1) (H0 := samplePDF)
         [PostUpload forwardSchedule "id-1"
            (Upload "text/plain"
               {| fileData := runes "a b a"; fileErr := false |})])
      "id-1"
    = Some {| ID := "id-1";
              Frequencies := [ {| Word := runes "a"; Frequency := 2 |};
                               {| Word := runes "b"; Frequency := 1 |} ] |})
    by (vm_compute; reflexivity).
  split; [exact Hget|].
  exact (stored_analysis_is_ranked (H := latin1) (H0 := samplePDF) _ _ _ Hget).
Defined.

(** ** Ranking and case *)

(** X17: the first entry of the result is a most frequent word: no entry has
    a greater frequency. *)
Theorem aggregate_first_is_most_frequent (sched : Schedule)
    (words : list (list rune)) (first : WordFrequency)
    (others : list WordFrequency) :
  aggregate sched words = first :: others →
  Forall (fun wf => Frequency wf ≤ Frequency first) others.
Proof.
  intros Hres. pose proof (aggregate_sorted sched words) as Hs.
  rewrite Hres in Hs.
  assert (Htrans : Transitive (fun a b => Frequency b ≤ Frequency a))
    by (intros x y z; lia).
  apply (Sorted_StronglySorted (fun a b => Frequency b ≤ Frequency a)) in Hs.
  by inversion Hs.
Qed.

(** The scenario of the specification. *)
Lemma aggregate_first_is_most_frequent_witness :
  aggregate forwardSchedule (map runes ["the"; "cat"; "the"])
  = {| Word := runes "the"; Frequency := 2 |}
    :: [ {| Word := runes "cat"; Frequency := 1 |} ]
  ∧ Forall (fun wf => Frequency wf ≤ 2)
      [ {| Word := runes "cat"; Frequency := 1 |} ].
Proof.
  assert (Hres : aggregate forwardSchedule (map runes ["the"; "cat"; "the"])
                 = {| Word := runes "the"; Frequency := 2 |}
                   :: [ {| Word := runes "cat"; Frequency := 1 |} ])
    by (vm_compute; reflexivity).
  split; [exact Hres|].
  exact (aggregate_first_is_most_frequent forwardSchedule _ _ _ Hres).
Defined.

Lemma occurInOrder_all `{Unicode} ts s :
  occurInOrder ts s → ∀ t c, t ∈ ts → c ∈ t → c ∈ s.
Proof.
  induction 1 as [s|t0 ts pre post Hocc IH]; intros t c Ht Hc.
  - by apply elem_of_nil in Ht.
  - rewrite !elem_of_app. apply elem_of_cons in Ht as [->|Ht]; [auto|].
    right. right. by eapply IH.
Qed.

(** X18: every character of every token is the lowercase of a character of
    the text: the words are reported in lower case, whatever the case in
    which they were written. *)
Theorem tokens_are_lowercased `{Unicode} (text : list rune) (t : list rune)
    (c : rune) :
  t ∈ tokenize text → c ∈ t → ∃ c0, c0 ∈ text ∧ c = toLower c0.
Proof.
  intros Ht Hc.
  pose proof (allMatches_occurInOrder (S (length (ToLower text)))
                (ToLower text) None None) as Hocc.
  assert (Hin : c ∈ ToLower text)
    by (eapply occurInOrder_all; [exact Hocc|exact Ht|exact Hc]).
  unfold ToLower in Hin. apply list_elem_of_fmap in Hin as (c0 & -> & Hc0).
  by exists c0.
Qed.

(** The word [THE], written in capitals. *)
Lemma tokens_are_lowercased_witness :
  runes "the" ∈ tokenize (H := latin1) (runes "THE CAT")
  ∧ 116 ∈ runes "the"
  ∧ ∃ c0, c0 ∈ runes "THE CAT" ∧ 116 = toLower (Unicode := latin1) c0.
Proof.
  assert (Ht : runes "the" ∈ tokenize (H := latin1) (runes "THE CAT"))
    by (vm_compute; left).
  assert (Hc : 116 ∈ runes "the") by (vm_compute; left).
  split; [exact Ht|]. split; [exact Hc|].
  exact (tokens_are_lowercased (H := latin1) _ _ _ Ht Hc).
Defined.
